(** * String and alignment algorithms of [iris/algorithms.py]

    A shallow embedding of [edit_distance], [full_edit_distance], [align],
    [greek_chars] and [greek_filter], and the properties proved about them.
    Semi-global alignment, which the sources do not contain, is modelled
    from its specification.

    Conventions of the embedding.
    - A unit of a sequence is a Python string: iterating a [str] yields
      strings of length one, a word list yields words.  A sequence is a
      [list string]; [tuple(s)] of a text is [chars s].
    - Numbers are [Z].  The rolling rows of [edit_distance] are integer
      arrays; the scoring matrix of [full_edit_distance] is a float64 array
      that only ever holds sums and products of the configured costs, which
      are taken integral here.
    - A numpy vector is a [list]; a numpy matrix is a list of rows, read with
      [mget] and written in place with [mset].
    - [charmatrix] is a [gmap] keyed by pairs of units; [''] is the empty
      string.
    - Code that can raise, or loop, returns a [result]. *)

From stdpp Require Import gmap strings list.
From Stdlib Require Import ZArith Lia.

Local Open Scope Z_scope.

(** ** Exceptions and results *)

Inductive exn : Set :=
  | IndexError
  | KeyError
  | NidabaAlgorithmException.

Inductive result (A : Type) : Type :=
  | Ok (x : A)
  | Raised (e : exn)
  | OutOfFuel.

Arguments Ok {A} x.
Arguments Raised {A} e.
Arguments OutOfFuel {A}.

(** ** Python and numpy primitives *)

(** [tuple(s)] for a text [s]: its characters, each a string of length one. *)
Fixpoint chars (s : string) : list string :=
  match s with
  | EmptyString => []
  | String c s' => String c EmptyString :: chars s'
  end.

(** [xrange(lo, hi)] *)
Definition xrange (lo hi : nat) : list nat := seq lo (hi - lo).

(** [numpy.arange(n)] *)
Definition arange (n : nat) : list Z := Z.of_nat <$> seq 0 n.

(** [row + k] *)
Definition np_add_scalar (row : list Z) (k : Z) : list Z :=
  (fun x => x + k) <$> row.

(** [numpy.add(xs, ys)] *)
Definition np_add (xs ys : list Z) : list Z := zip_with Z.add xs ys.

(** [numpy.minimum(xs, ys)] *)
Definition np_minimum (xs ys : list Z) : list Z := zip_with Z.min xs ys.

(** [arr != s], as the 0/1 values [numpy.add] sees. *)
Definition np_ne (arr : list string) (s : string) : list Z :=
  (fun c => if decide (c = s) then 0 else 1) <$> arr.

(** [row[1:]] *)
Definition slice_from1 {A} (row : list A) : list A := tail row.

(** [row[:-1]], also written [row[0:-1]] *)
Definition slice_to_last {A} (row : list A) : list A := removelast row.

(** [row[1:] = new] *)
Definition assign_from1 {A} (row new : list A) : list A :=
  match row with
  | [] => []
  | x :: _ => x :: new
  end.

(** [row[-1]] *)
Definition last_item (row : list Z) : Z := List.last row 0.

(** [numpy.empty(shape=(rows, cols))]; [fill] stands for the unspecified
    initial content. *)
Definition np_empty {A} (rows cols : nat) (fill : A) : list (list A) :=
  replicate rows (replicate cols fill).

(** [matrix.shape] *)
Definition shape {A} (matrix : list (list A)) : nat * nat :=
  (length matrix, length (default [] (matrix !! 0%nat))).

(** [matrix[i, j]] for indices known to be in range *)
Definition mget {A} `{Inhabited A} (matrix : list (list A)) (i j : nat) : A :=
  (matrix !!! i) !!! j.

(** [matrix[i, j] = v] *)
Definition mset {A} (matrix : list (list A)) (i j : nat) (v : A)
  : list (list A) :=
  alter (fun row => <[j := v]> row) i matrix.

(** [matrix[1:, 0] = v] *)
Definition assign_col0_from1 {A} (matrix : list (list A)) (v : A)
  : list (list A) :=
  imap (fun i row => if decide (1 <= i)%nat then <[0%nat := v]> row else row)
       matrix.

(** [matrix[0, 1:] = v] *)
Definition assign_row0_from1 {A} (matrix : list (list A)) (v : A)
  : list (list A) :=
  alter (fun row => imap (fun j x => if decide (1 <= j)%nat then v else x) row)
        0%nat matrix.

(** An index of a numpy axis of length [len]: negative indices count from
    the end, anything else out of range raises. *)
Definition np_index (len : nat) (k : Z) : option nat :=
  if decide (0 <= k) then
    if decide (k < Z.of_nat len) then Some (Z.to_nat k) else None
  else
    if decide (- Z.of_nat len <= k) then Some (Z.to_nat (k + Z.of_nat len))
    else None.

(** [matrix[i, j]] for arbitrary integer indices *)
Definition np_get2 {A} (matrix : list (list A)) (i j : Z) : option A :=
  i' ← np_index (shape matrix).1 i;
  j' ← np_index (shape matrix).2 j;
  row ← matrix !! i';
  row !! j'.

(** [d.get(k, dflt)] *)
Definition dict_get `{Countable K} {V} (d : gmap K V) (k : K) (dflt : V) : V :=
  default dflt (d !! k).

(** [min(x, *xs, key=key)]: the first element whose key is smallest. *)
Definition py_min {A} (key : A -> Z) (x : A) (xs : list A) : A :=
  foldl (fun best y => if decide (key y < key best) then y else best) x xs.

(** ** edit_distance *)

(** One turn of [for s in str1]. *)
Definition edit_distance_row (str2 : list string) (previous_row : list Z)
    (s : string) : list Z :=
  let current_row := np_add_scalar previous_row 1 in
  let current_row :=
    assign_from1 current_row
      (np_minimum (slice_from1 current_row)
                  (np_add (slice_to_last previous_row) (np_ne str2 s))) in
  let current_row :=
    assign_from1 current_row
      (np_minimum (slice_from1 current_row)
                  (np_add_scalar (slice_to_last current_row) 1)) in
  current_row.

(** The body of [edit_distance] below the length test. *)
Definition edit_distance_ordered (str1 str2 : list string) : Z :=
  if decide (length str2 = 0%nat) then Z.of_nat (length str1)
  else
    let previous_row := arange (length str2 + 1) in
    last_item (foldl (edit_distance_row str2) previous_row str1).

Definition edit_distance (str1 str2 : list string) : Z :=
  if decide (length str1 < length str2)%nat
  then edit_distance_ordered str2 str1
  else edit_distance_ordered str1 str2.

(** ** full_edit_distance *)

Record costs : Type := Costs {
  substitutionscore : Z;
  insertscore : Z;
  deletescore : Z;
  charmatrix : gmap (string * string) Z
}.

Definition default_costs : costs :=
  {| substitutionscore := 1; insertscore := 1; deletescore := 1;
     charmatrix := ∅ |}.

Section full_edit_distance.
Variable (str1 str2 : list string) (cfg : costs).

(** The candidate tuple [scores] at cell [(i, j)]. *)
Definition scores (matrix : list (list Z)) (i j : nat)
  : (string * Z) * (string * Z) * (string * Z) :=
  let c1 := str1 !!! (i - 1)%nat in
  let c2 := str2 !!! (j - 1)%nat in
  (("s", mget matrix (i - 1) (j - 1)
         + dict_get (charmatrix cfg) (c1, c2) (substitutionscore cfg)),
   ("i", mget matrix i (j - 1)
         + dict_get (charmatrix cfg) (c1, c2) (insertscore cfg)),
   ("d", mget matrix (i - 1) j
         + dict_get (charmatrix cfg) (c1, c2) (deletescore cfg))).

(** [min(scores, key=lambda x: x[1])] *)
Definition bestoption (matrix : list (list Z)) (i j : nat) : string * Z :=
  let '(s, i', d) := scores matrix i j in
  py_min snd s [i'; d].

(** The body of the inner loop.  The source builds [scores] before the
    test and takes its minimum in the second branch only; building it has
    no effect, so it is built here where it is used. *)
Definition fill_cell (st : list (list Z) * list (list (option string)))
    (i j : nat) : list (list Z) * list (list (option string)) :=
  let '(matrix, steps) := st in
  if decide (str1 !!! (i - 1)%nat = str2 !!! (j - 1)%nat) then
    (mset matrix i j (mget matrix (i - 1) (j - 1)),
     mset steps i j (Some "m"))
  else
    let best := bestoption matrix i j in
    (mset matrix i j best.2, mset steps i j (Some best.1)).

Definition fill_row (st : list (list Z) * list (list (option string)))
    (i : nat) : list (list Z) * list (list (option string)) :=
  foldl (fun st j => fill_cell st i j) st (xrange 1 (length str2 + 1)).

Definition init_matrix : list (list Z) :=
  let matrix := np_empty (length str1 + 1) (length str2 + 1) 0 in
  let matrix := mset matrix 0 0 0 in
  let matrix :=
    foldl (fun m i =>
             mset m i 0
               (Z.of_nat i * dict_get (charmatrix cfg)
                               ("", str1 !!! (i - 1)%nat) (deletescore cfg)))
          matrix (xrange 1 (shape matrix).1) in
  foldl (fun m j =>
           mset m 0 j
             (Z.of_nat j * dict_get (charmatrix cfg)
                             (str2 !!! (j - 1)%nat, "") (insertscore cfg)))
        matrix (xrange 1 (shape matrix).2).

(** An object array starts out holding [None] everywhere. *)
Definition init_steps : list (list (option string)) :=
  let steps := np_empty (length str1 + 1) (length str2 + 1) None in
  let steps := assign_col0_from1 steps (Some "d") in
  let steps := assign_row0_from1 steps (Some "i") in
  mset steps 0 0 (Some "").

Definition full_edit_distance
  : list (list Z) * list (list (option string)) :=
  foldl fill_row (init_matrix, init_steps) (xrange 1 (length str1 + 1)).
End full_edit_distance.

(** ** align *)

Definition key : gmap string (Z * Z) :=
  list_to_map [("i", (0, -1)); ("d", (-1, 0)); ("m", (-1, -1)); ("s", (-1, -1))].

(** The [while] loop of [align]; [fuel] bounds the number of turns. *)
Fixpoint backtrace (fuel : nat) (steps : list (list (option string)))
    (i j : Z) (path : list string) : result (list string) :=
  match fuel with
  | O => OutOfFuel
  | S fuel' =>
    match np_get2 steps i j with
    | None => Raised IndexError
    | Some None => Raised KeyError
    | Some (Some op) =>
      if decide (op = "") then Ok path
      else
        match key !! op with
        | None => Raised KeyError
        | Some (di, dj) => backtrace fuel' steps (i + di) (j + dj) (op :: path)
        end
    end
  end.

Definition align_fuel (fuel : nat) (str1 str2 : list string) (cfg : costs)
  : result (list string) :=
  let '(matrix, steps) := full_edit_distance str1 str2 cfg in
  let i := Z.of_nat (shape matrix).1 - 1 in
  let j := Z.of_nat (shape matrix).2 - 1 in
  backtrace fuel steps i j [].

Definition align (str1 str2 : list string) (cfg : costs)
  : result (list string) :=
  align_fuel (length str1 + length str2 + 1) str1 str2 cfg.

(** ** Greek algorithms *)

(** A unicode character is its code point; [ord] and [unichr] convert. *)
Definition ord (c : Z) : Z := c.
Definition unichr (i : Z) : Z := i.

(** [range(lo, hi)] on integers *)
Definition range (lo hi : Z) : list Z := seqZ lo (hi - lo).

Definition greek_and_coptic_range : list Z := range (ord 0x0370) (ord 0x03FF + 1).
Definition extended_greek_range : list Z := range (ord 0x1F00) (ord 0x1FFF + 1).
Definition combining_diacritical_mark_range : list Z :=
  range (ord 0x0300) (ord 0x0360 + 1).

Definition greek_chars : list Z :=
  let chars := unichr <$> greek_and_coptic_range in
  let chars := foldl (fun cs i => cs ++ [unichr i]) chars extended_greek_range in
  let chars :=
    foldl (fun cs i => cs ++ [unichr i]) chars combining_diacritical_mark_range in
  chars.

(** [filter(greek_chars().__contains__, string)] *)
Definition greek_filter (string : list Z) : list Z :=
  filter (fun c => c ∈ greek_chars) string.

(** ** hOCR algorithms *)

(** [text.rstrip()]: the text without its trailing whitespace.  Which
    characters count as whitespace is left to [isspace]. *)
Fixpoint rstrip (isspace : Z -> bool) (text : list Z) : list Z :=
  match text with
  | [] => []
  | c :: text' =>
    match rstrip isspace text' with
    | [] => if isspace c then [] else [c]
    | rest => c :: rest
    end
  end.

(** [to_unicode] on the text of an element, which is decoded already. *)
Definition to_unicode (text : list Z) : list Z := text.

(** The [for] loop of [extract_hocr_tokens].  [context] lists, in the order
    the parser meets their end tags, the [text] of the [span] elements,
    [None] for an element without text; [None] as a result stands for the
    [AttributeError] that [None.rstrip()] raises.  Clearing an element and
    deleting its earlier siblings frees memory and leaves the texts still to
    come as they are. *)
Fixpoint extract_hocr_loop (isspace : Z -> bool)
    (context : list (option (list Z))) (words : list (list Z))
  : option (list (list Z)) :=
  match context with
  | [] => Some words
  | None :: _ => None
  | Some text :: context' =>
    let word := to_unicode (rstrip isspace text) in
    let words :=
      if decide (0 < length word)%nat then words ++ [word] else words in
    extract_hocr_loop isspace context' words
  end.

Definition extract_hocr_tokens (isspace : Z -> bool)
    (context : list (option (list Z))) : option (list (list Z)) :=
  extract_hocr_loop isspace context [].

(** ** Edit scripts

    What it means to apply an operation sequence to a pair of sequences:
    ['m'] consumes one unit of each, which must be equal; ['s'] consumes one
    unit of each; ['i'] consumes one unit of the second sequence; ['d']
    consumes one unit of the first.  Every operation but ['d'] emits the unit
    of the second sequence.  The script is accepted when both sequences are
    used up; the result is the emitted sequence and the total cost.

    An operation is charged its configured cost: a match is free, a
    substitution of [x] by [y] costs the override at [(x, y)], an insertion
    of [y] the override at [(y, '')], a deletion of [x] the override at
    [('', x)], each falling back to the scalar cost of the operation. *)

Definition op_cost (cfg : costs) (op x y : string) : Z :=
  if decide (op = "m") then 0
  else if decide (op = "s") then
    dict_get (charmatrix cfg) (x, y) (substitutionscore cfg)
  else if decide (op = "i") then
    dict_get (charmatrix cfg) (y, "") (insertscore cfg)
  else dict_get (charmatrix cfg) ("", x) (deletescore cfg).

Fixpoint replay (cfg : costs) (ops a b : list string)
  : option (list string * Z) :=
  match ops with
  | [] =>
    match a, b with
    | [], [] => Some ([], 0)
    | _, _ => None
    end
  | op :: ops' =>
    if decide (op = "m") then
      match a, b with
      | x :: a', y :: b' =>
        if decide (x = y) then
          r ← replay cfg ops' a' b'; Some (y :: r.1, r.2)
        else None
      | _, _ => None
      end
    else if decide (op = "s") then
      match a, b with
      | x :: a', y :: b' =>
        r ← replay cfg ops' a' b'; Some (y :: r.1, op_cost cfg op x y + r.2)
      | _, _ => None
      end
    else if decide (op = "i") then
      match b with
      | y :: b' =>
        r ← replay cfg ops' a b'; Some (y :: r.1, op_cost cfg op "" y + r.2)
      | _ => None
      end
    else if decide (op = "d") then
      match a with
      | x :: a' =>
        r ← replay cfg ops' a' b; Some (r.1, op_cost cfg op x "" + r.2)
      | _ => None
      end
    else None
  end.

(** [v] is the least total cost of a script that turns [a] into [b]. *)
Definition is_min_script_cost (cfg : costs) (a b : list string) (v : Z) : Prop :=
  (exists ops out, replay cfg ops a b = Some (out, v)) /\
  (forall ops out k, replay cfg ops a b = Some (out, k) -> v <= k).

(** The operation that does to [(b, a)] what [op] does to [(a, b)]. *)
Definition swap_op (op : string) : string :=
  if decide (op = "i") then "d" else if decide (op = "d") then "i" else op.

(** ** Semi-global alignment *)

(** Modelled from the spec: the scoring matrix of semi-global alignment,
    whose function is not among the sources.  It is the matrix of
    [full_edit_distance] except that row 0 is zero throughout. *)
Definition semi_global_init_matrix (seq1 : list string) (cfg : costs)
    (cols : nat) : list (list Z) :=
  let matrix := np_empty (length seq1 + 1) cols 0 in
  foldl (fun m i =>
           mset m i 0
             (Z.of_nat i * dict_get (charmatrix cfg)
                             ("", seq1 !!! (i - 1)%nat) (deletescore cfg)))
        matrix (xrange 1 (length seq1 + 1)).

(** Modelled from the spec: the column of the cheapest cell of a row, the
    leftmost one among equals. *)
Definition argmin_row (row : list Z) : nat :=
  (py_min snd (0%nat, row !!! 0%nat) (imap (fun j v => (j, v)) row)).1.

(** Modelled from the spec: [semiGlobalAlign], not among the sources.  A
    first sequence longer than the second is an algorithm-usage error;
    otherwise the traceback starts at the cheapest cell of the last row and
    runs as in [align]. *)
Definition semi_global_align (seq1 seq2 : list string) (cfg : costs)
  : result (list string) :=
  if decide (length seq2 < length seq1)%nat then
    Raised NidabaAlgorithmException
  else
    let '(matrix, steps) :=
      foldl (fill_row seq1 seq2 cfg)
            (semi_global_init_matrix seq1 cfg (length seq2 + 1),
             init_steps seq1 seq2)
            (xrange 1 (length seq1 + 1)) in
    let i := length seq1 in
    let j := argmin_row (matrix !!! i) in
    backtrace (i + j + 1) steps (Z.of_nat i) (Z.of_nat j) [].

(** ** Predicates used in the statements *)

(** A matrix of [rows] rows of [cols] cells each. *)
Definition well_shaped {A} (rows cols : nat) (matrix : list (list A)) : Prop :=
  length matrix = rows /\ forall i row, matrix !! i = Some row -> length row = cols.

(** Cell [(i, j)] of the two matrices holds what the loop body computes from
    the neighbouring cells of the same scoring matrix. *)
Definition cell_ok (str1 str2 : list string) (cfg : costs)
    (st : list (list Z) * list (list (option string))) (i j : nat) : Prop :=
  if decide (str1 !!! (i - 1)%nat = str2 !!! (j - 1)%nat) then
    mget st.1 i j = mget st.1 (i - 1) (j - 1) /\ mget st.2 i j = Some "m"
  else
    mget st.1 i j = (bestoption str1 str2 cfg st.1 i j).2 /\
    mget st.2 i j = Some (bestoption str1 str2 cfg st.1 i j).1.

(** Both matrices of [st'] hold what those of [st] hold at cell [(i, j)]. *)
Definition same_cell (st st' : list (list Z) * list (list (option string)))
    (i j : nat) : Prop :=
  mget st'.1 i j = mget st.1 i j /\ mget st'.2 i j = mget st.2 i j.

Definition both_shaped (rows cols : nat)
    (st : list (list Z) * list (list (option string))) : Prop :=
  well_shaped rows cols st.1 /\ well_shaped rows cols st.2.

(** The three closed intervals of code points that [greek_chars] lists. *)
Definition greek_codepoint (c : Z) : Prop :=
  0x0370 <= c <= 0x03FF \/ 0x1F00 <= c <= 0x1FFF \/ 0x0300 <= c <= 0x0360.

#[global] Instance greek_codepoint_dec c : Decision (greek_codepoint c).
Proof. unfold greek_codepoint. apply _. Defined.

(** The row of [edit_distance] after the substitution-or-match step of a
    turn, before the last step of the turn. *)
Definition matched_row (str2 : list string) (previous_row : list Z)
    (s : string) : list Z :=
  let current_row := np_add_scalar previous_row 1 in
  assign_from1 current_row
    (np_minimum (slice_from1 current_row)
                (np_add (slice_to_last previous_row) (np_ne str2 s))).

(** After [i] turns, entry [j] of the row of [edit_distance] lies between
    the difference and the larger of [i] and [j]. *)
Definition row_bounded (m : nat) (i : Z) (row : list Z) : Prop :=
  length row = (m + 1)%nat /\
  forall j, (j <= m)%nat ->
    Z.abs (i - Z.of_nat j) <= row !!! j <= Z.max i (Z.of_nat j).

(** * Properties *)

(** ** Matrices *)

Section matrices.
Context {A : Type} `{Inhabited A}.
Implicit Types (matrix : list (list A)) (v : A) (i j : nat).

Lemma well_shaped_np_empty rows cols v :
  well_shaped rows cols (np_empty rows cols v).
Proof.
  split; [apply length_replicate|].
  intros i row [-> _]%lookup_replicate. apply length_replicate.
Qed.

Lemma well_shaped_mset rows cols matrix i j v :
  well_shaped rows cols matrix -> well_shaped rows cols (mset matrix i j v).
Proof.
  intros [Hlen Hrows]. split; [unfold mset; by rewrite length_alter|].
  intros i' row. unfold mset. destruct (decide (i = i')) as [->|Hne].
  - rewrite list_lookup_alter_eq.
    destruct (matrix !! i') as [r|] eqn:Hr; [|done].
    intros [= <-]. rewrite length_insert. eauto.
  - rewrite list_lookup_alter_ne by done. eauto.
Qed.

Lemma well_shaped_row rows cols matrix i :
  well_shaped rows cols matrix -> (i < rows)%nat ->
  length (matrix !!! i) = cols.
Proof.
  intros [Hlen Hrows] Hi. apply (Hrows i).
  apply list_lookup_lookup_total_lt. lia.
Qed.

Lemma shape_well_shaped rows cols matrix :
  well_shaped rows cols matrix -> (0 < rows)%nat -> shape matrix = (rows, cols).
Proof.
  intros Hws Hpos. pose proof (well_shaped_row _ _ _ 0%nat Hws Hpos) as Hrow.
  destruct Hws as [Hlen _]. unfold shape. rewrite Hlen. f_equal.
  rewrite <- Hrow. rewrite list_lookup_total_alt. reflexivity.
Qed.

Lemma mget_mset_eq rows cols matrix i j v :
  well_shaped rows cols matrix -> (i < rows)%nat -> (j < cols)%nat ->
  mget (mset matrix i j v) i j = v.
Proof.
  intros Hws Hi Hj. unfold mget, mset.
  rewrite list_lookup_total_alter_eq by (destruct Hws; lia).
  apply list_lookup_total_insert_eq.
  by rewrite (well_shaped_row _ _ _ _ Hws Hi).
Qed.

Lemma mget_mset_ne matrix i j i' j' v :
  i <> i' \/ j <> j' -> mget (mset matrix i j v) i' j' = mget matrix i' j'.
Proof.
  intros Hne. unfold mget, mset.
  destruct (decide (i = i')) as [->|Hi].
  - destruct Hne as [|Hj]; [done|].
    destruct (decide (i' < length matrix)%nat) as [Hlt|Hge].
    + rewrite list_lookup_total_alter_eq by done.
      by apply list_lookup_total_insert_ne.
    + rewrite !list_lookup_total_alt.
      rewrite list_lookup_alter_eq.
      by rewrite (lookup_ge_None_2 matrix i') by lia.
  - by rewrite list_lookup_total_alter_ne.
Qed.

Lemma np_index_in_range len (k : nat) :
  (k < len)%nat -> np_index len (Z.of_nat k) = Some k.
Proof.
  intros Hk. unfold np_index.
  rewrite decide_True by lia. rewrite decide_True by lia.
  by rewrite Nat2Z.id.
Qed.

Lemma np_get2_mget rows cols matrix i j :
  well_shaped rows cols matrix -> (i < rows)%nat -> (j < cols)%nat ->
  np_get2 matrix (Z.of_nat i) (Z.of_nat j) = Some (mget matrix i j).
Proof.
  intros Hws Hi Hj. unfold np_get2.
  rewrite (shape_well_shaped rows cols) by (done || lia). simpl.
  rewrite !np_index_in_range by done. simpl.
  pose proof (well_shaped_row _ _ _ _ Hws Hi) as Hrow.
  destruct Hws as [Hlen _].
  rewrite (list_lookup_lookup_total_lt matrix i) by lia. simpl.
  unfold mget. apply list_lookup_lookup_total_lt. lia.
Qed.
End matrices.

(** A loop that writes one cell per turn, at pairwise distinct places. *)
Lemma foldl_mset_spec {A} `{Inhabited A} (pos : nat -> nat * nat) (f : nat -> A)
    (l : list nat) (matrix : list (list A)) rows cols :
  well_shaped rows cols matrix ->
  (forall k, k ∈ l -> ((pos k).1 < rows)%nat /\ ((pos k).2 < cols)%nat) ->
  (forall k k', pos k = pos k' -> k = k') ->
  let matrix' :=
    foldl (fun m k => mset m (pos k).1 (pos k).2 (f k)) matrix l in
  well_shaped rows cols matrix' /\
  (forall k, k ∈ l -> mget matrix' (pos k).1 (pos k).2 = f k) /\
  (forall i j, (forall k, k ∈ l -> pos k <> (i, j)) ->
               mget matrix' i j = mget matrix i j).
Proof.
  intros Hws Hin Hinj. simpl. revert matrix Hws.
  induction l as [|x l IH]; intros matrix Hws; simpl.
  - split; [done|]. split; [|done]. intros k Hk. by apply elem_of_nil in Hk.
  - destruct (IH (fun k Hk => Hin k (list_elem_of_further _ _ _ Hk))
                 (mset matrix (pos x).1 (pos x).2 (f x))
                 (well_shaped_mset _ _ _ _ _ _ Hws)) as (Hws' & Hhit & Hmiss).
    split; [done|]. split.
    + intros k [->|Hk]%elem_of_cons; [|by apply Hhit].
      destruct (decide (x ∈ l)) as [Hx|Hx]; [by apply Hhit|].
      rewrite Hmiss.
      * destruct (Hin x) as [? ?]; [left|]. by eapply mget_mset_eq.
      * intros k Hk Heq. apply Hx.
        replace x with k; [done|]. apply Hinj.
        rewrite Heq. by destruct (pos x).
    + intros i j Hne. rewrite Hmiss.
      * apply mget_mset_ne.
        destruct (decide ((pos x).1 = i)) as [Hi|Hi]; [|by left].
        destruct (decide ((pos x).2 = j)) as [Hj|Hj]; [|by right].
        exfalso. apply (Hne x); [left|]. destruct (pos x); simpl in *; congruence.
      * intros k Hk. apply Hne. by right.
Qed.

Lemma elem_of_xrange lo hi k : k ∈ xrange lo hi <-> (lo <= k < hi)%nat.
Proof. unfold xrange. rewrite elem_of_seq. lia. Qed.

Section boundary.
Variable (str1 str2 : list string) (cfg : costs).

Local Abbreviation n := (length str1).
Local Abbreviation m := (length str2).

Lemma init_matrix_spec :
  let matrix := init_matrix str1 str2 cfg in
  well_shaped (n + 1) (m + 1) matrix /\
  mget matrix 0 0 = 0 /\
  (forall i, (1 <= i <= n)%nat ->
     mget matrix i 0 =
     Z.of_nat i * dict_get (charmatrix cfg) ("", str1 !!! (i - 1)%nat)
                    (deletescore cfg)) /\
  (forall j, (1 <= j <= m)%nat ->
     mget matrix 0 j =
     Z.of_nat j * dict_get (charmatrix cfg) (str2 !!! (j - 1)%nat, "")
                    (insertscore cfg)).
Proof.
  unfold init_matrix.
  set (m0 := mset (np_empty (n + 1) (m + 1) 0) 0 0 0).
  assert (Hws0 : well_shaped (n + 1) (m + 1) m0)
    by apply well_shaped_mset, well_shaped_np_empty.
  rewrite (shape_well_shaped _ _ _ Hws0) by lia. simpl fst.
  set (fd := fun i : nat =>
         Z.of_nat i * dict_get (charmatrix cfg) ("", str1 !!! (i - 1)%nat)
                        (deletescore cfg)).
  destruct (foldl_mset_spec (fun k => (k, 0%nat)) fd (xrange 1 (n + 1)) m0
              (n + 1) (m + 1) Hws0) as (Hws1 & Hhit1 & Hmiss1).
  { intros k Hk%elem_of_xrange. simpl. lia. }
  { intros k k' [= ->]. done. }
  simpl in Hws1, Hhit1, Hmiss1.
  set (m1 := foldl _ m0 (xrange 1 (n + 1))) in *.
  rewrite (shape_well_shaped _ _ _ Hws1) by lia. simpl snd.
  set (fi := fun j : nat =>
         Z.of_nat j * dict_get (charmatrix cfg) (str2 !!! (j - 1)%nat, "")
                        (insertscore cfg)).
  destruct (foldl_mset_spec (fun k => (0%nat, k)) fi (xrange 1 (m + 1)) m1
              (n + 1) (m + 1) Hws1) as (Hws2 & Hhit2 & Hmiss2).
  { intros k Hk%elem_of_xrange. simpl. lia. }
  { intros k k' [= ->]. done. }
  simpl in Hws2, Hhit2, Hmiss2. simpl.
  split; [done|]. split; [|split].
  - rewrite Hmiss2, Hmiss1.
    + unfold m0. eapply mget_mset_eq; [apply well_shaped_np_empty|lia|lia].
    + intros k Hk%elem_of_xrange [= ->]. lia.
    + intros k Hk%elem_of_xrange [= ->]. lia.
  - intros i Hi. rewrite Hmiss2.
    + apply (Hhit1 i). apply elem_of_xrange. lia.
    + intros k Hk%elem_of_xrange [= ? ?]. lia.
  - intros j Hj. apply (Hhit2 j). apply elem_of_xrange. lia.
Qed.

Lemma init_steps_spec :
  let steps := init_steps str1 str2 in
  well_shaped (n + 1) (m + 1) steps /\
  mget steps 0 0 = Some "" /\
  (forall i, (1 <= i <= n)%nat -> mget steps i 0 = Some "d") /\
  (forall j, (1 <= j <= m)%nat -> mget steps 0 j = Some "i").
Proof.
  unfold init_steps.
  set (s0 := np_empty (n + 1) (m + 1) (None : option string)).
  assert (Hws0 : well_shaped (n + 1) (m + 1) s0) by apply well_shaped_np_empty.
  set (s1 := assign_col0_from1 s0 (Some "d")).
  assert (Hws1 : well_shaped (n + 1) (m + 1) s1).
  { destruct Hws0 as [Hlen Hrows]. split.
    - unfold s1, assign_col0_from1. by rewrite length_imap.
    - intros i row. unfold s1, assign_col0_from1.
      rewrite list_lookup_imap.
      destruct (s0 !! i) as [r|] eqn:Hr; [|done]. simpl. intros [= <-].
      case_decide; [rewrite length_insert|]; eauto. }
  set (s2 := assign_row0_from1 s1 (Some "i")).
  assert (Hws2 : well_shaped (n + 1) (m + 1) s2).
  { destruct Hws1 as [Hlen Hrows]. split.
    - unfold s2, assign_row0_from1. by rewrite length_alter.
    - intros i row. unfold s2, assign_row0_from1.
      destruct (decide (0%nat = i)) as [<-|Hne].
      + rewrite list_lookup_alter_eq.
        destruct (s1 !! 0%nat) as [r|] eqn:Hr; [|done]. simpl. intros [= <-].
        rewrite length_imap. eauto.
      + rewrite list_lookup_alter_ne by done. eauto. }
  assert (Hcol : forall i, (1 <= i <= n)%nat -> mget s1 i 0 = Some "d").
  { intros i Hi. unfold mget.
    rewrite (list_lookup_total_correct s1 i (<[0%nat := Some "d"]> (s0 !!! i))).
    - apply list_lookup_total_insert_eq.
      rewrite (well_shaped_row _ _ _ _ Hws0); lia.
    - unfold s1, assign_col0_from1. rewrite list_lookup_imap.
      rewrite (list_lookup_lookup_total_lt s0 i)
        by (destruct Hws0 as [-> _]; lia).
      simpl. by rewrite decide_True by lia. }
  simpl. split; [by apply well_shaped_mset|]. split; [|split].
  - eapply mget_mset_eq; [done|lia|lia].
  - intros i Hi. rewrite mget_mset_ne by (left; lia).
    unfold mget, s2, assign_row0_from1.
    rewrite list_lookup_total_alter_ne by lia. by apply Hcol.
  - intros j Hj. rewrite mget_mset_ne by (right; lia).
    unfold mget, s2, assign_row0_from1.
    rewrite list_lookup_total_alter_eq by (destruct Hws1 as [-> _]; lia).
    rewrite list_lookup_total_alt, list_lookup_imap.
    rewrite (list_lookup_lookup_total_lt (s1 !!! 0%nat) j)
      by (rewrite (well_shaped_row _ _ _ _ Hws1); lia).
    simpl. by rewrite decide_True by lia.
Qed.
End boundary.

(** ** The main loop of [full_edit_distance] *)

Section interior.
Variable (str1 str2 : list string) (cfg : costs).

Local Abbreviation n := (length str1).
Local Abbreviation m := (length str2).
Local Abbreviation state := (list (list Z) * list (list (option string)))%type.

Lemma same_cell_refl (st : state) i j : same_cell st st i j.
Proof. by split. Qed.

Lemma same_cell_trans (st1 st2 st3 : state) i j :
  same_cell st1 st2 i j -> same_cell st2 st3 i j -> same_cell st1 st3 i j.
Proof. intros [? ?] [? ?]. split; congruence. Qed.

Lemma bestoption_ext (matrix matrix' : list (list Z)) i j :
  mget matrix' (i - 1) (j - 1) = mget matrix (i - 1) (j - 1) ->
  mget matrix' i (j - 1) = mget matrix i (j - 1) ->
  mget matrix' (i - 1) j = mget matrix (i - 1) j ->
  bestoption str1 str2 cfg matrix' i j = bestoption str1 str2 cfg matrix i j.
Proof. intros H1 H2 H3. unfold bestoption, scores. by rewrite H1, H2, H3. Qed.

Lemma cell_ok_ext (st st' : state) i j :
  same_cell st st' i j -> same_cell st st' (i - 1) (j - 1) ->
  same_cell st st' i (j - 1) -> same_cell st st' (i - 1) j ->
  cell_ok str1 str2 cfg st i j -> cell_ok str1 str2 cfg st' i j.
Proof.
  intros [H0 H0'] [H1 _] [H2 _] [H3 _]. unfold cell_ok.
  rewrite (bestoption_ext _ _ _ _ H1 H2 H3), H0, H0', H1. done.
Qed.

Lemma fill_cell_spec (st : state) rows cols i j :
  both_shaped rows cols st ->
  (1 <= i < rows)%nat -> (1 <= j < cols)%nat ->
  let st' := fill_cell str1 str2 cfg st i j in
  both_shaped rows cols st' /\
  cell_ok str1 str2 cfg st' i j /\
  (forall i' j', i' <> i \/ j' <> j -> same_cell st st' i' j').
Proof.
  destruct st as [matrix steps]. intros [Hm Hs] Hi Hj. simpl in Hm, Hs.
  unfold fill_cell, cell_ok. simpl.
  destruct (decide (str1 !!! (i - 1)%nat = str2 !!! (j - 1)%nat)) as [Heq|Hne];
    simpl.
  - split; [split; by apply well_shaped_mset|]. split.
    + rewrite (mget_mset_eq rows cols), (mget_mset_eq rows cols) by (done || lia).
      by rewrite (mget_mset_ne matrix i j (i - 1) (j - 1)) by lia.
    + intros i' j' Hne. split; simpl; apply mget_mset_ne; lia.
  - split; [split; by apply well_shaped_mset|]. split.
    + rewrite (mget_mset_eq rows cols), (mget_mset_eq rows cols) by (done || lia).
      set (best := bestoption str1 str2 cfg matrix i j).
      rewrite (bestoption_ext matrix (mset matrix i j best.2));
        [done|apply mget_mset_ne; lia..].
    + intros i' j' Hne'. split; simpl; apply mget_mset_ne; lia.
Qed.

Lemma fill_row_prefix_spec (st : state) rows i k :
  both_shaped rows (m + 1) st ->
  (1 <= i < rows)%nat -> (k <= m)%nat ->
  let st' := foldl (fun st j => fill_cell str1 str2 cfg st i j) st (seq 1 k) in
  both_shaped rows (m + 1) st' /\
  (forall j, (1 <= j <= k)%nat -> cell_ok str1 str2 cfg st' i j) /\
  (forall i' j', ~ (i' = i /\ (1 <= j' <= k)%nat) -> same_cell st st' i' j').
Proof.
  intros Hsh Hi. induction k as [|k IH]; intros Hk; cbv zeta.
  - split; [done|]. split; [intros; lia|]. intros. apply same_cell_refl.
  - rewrite seq_S, foldl_snoc. cbv zeta in IH.
    destruct IH as (Hsh' & Hok & Hsame); [lia|].
    set (st1 := foldl _ st (seq 1 k)) in *.
    destruct (fill_cell_spec st1 rows (m + 1) i (1 + k) Hsh')
      as (Hsh2 & Hok2 & Hsame2); [lia..|].
    simpl in Hsh2, Hok2, Hsame2.
    split; [done|]. split.
    + intros j Hj. destruct (decide (j = (1 + k)%nat)) as [->|Hne]; [done|].
      apply (cell_ok_ext st1); [apply Hsame2; lia..|]. apply Hok. lia.
    + intros i' j' Hout. eapply same_cell_trans; [apply Hsame|apply Hsame2]; lia.
Qed.

Lemma fill_row_spec (st : state) rows i :
  both_shaped rows (m + 1) st -> (1 <= i < rows)%nat ->
  let st' := fill_row str1 str2 cfg st i in
  both_shaped rows (m + 1) st' /\
  (forall j, (1 <= j <= m)%nat -> cell_ok str1 str2 cfg st' i j) /\
  (forall i' j', ~ (i' = i /\ (1 <= j' <= m)%nat) -> same_cell st st' i' j').
Proof.
  intros Hsh Hi. unfold fill_row, xrange.
  replace (m + 1 - 1)%nat with m by lia.
  by apply fill_row_prefix_spec.
Qed.

Lemma fill_rows_spec (st : state) rows r :
  both_shaped rows (m + 1) st -> (r < rows)%nat ->
  let st' := foldl (fill_row str1 str2 cfg) st (seq 1 r) in
  both_shaped rows (m + 1) st' /\
  (forall i j, (1 <= i <= r)%nat -> (1 <= j <= m)%nat ->
               cell_ok str1 str2 cfg st' i j) /\
  (forall i' j', ~ ((1 <= i' <= r)%nat /\ (1 <= j' <= m)%nat) ->
                 same_cell st st' i' j').
Proof.
  intros Hsh. induction r as [|r IH]; intros Hr; cbv zeta.
  - split; [done|]. split; [intros; lia|]. intros. apply same_cell_refl.
  - rewrite seq_S, foldl_snoc. cbv zeta in IH.
    destruct IH as (Hsh' & Hok & Hsame); [lia|].
    set (st1 := foldl _ st (seq 1 r)) in *.
    destruct (fill_row_spec st1 rows (1 + r) Hsh')
      as (Hsh2 & Hok2 & Hsame2); [lia|].
    simpl in Hsh2, Hok2, Hsame2.
    split; [done|]. split.
    + intros i j Hi Hj. destruct (decide (i = (1 + r)%nat)) as [->|Hne].
      * by apply Hok2.
      * apply (cell_ok_ext st1); [apply Hsame2; lia..|]. apply Hok; lia.
    + intros i' j' Hout. eapply same_cell_trans; [apply Hsame|apply Hsame2]; lia.
Qed.

(** The two matrices returned by [full_edit_distance], cell by cell. *)
Lemma full_edit_distance_spec :
  let st := full_edit_distance str1 str2 cfg in
  both_shaped (n + 1) (m + 1) st /\
  (mget st.1 0 0 = 0 /\ mget st.2 0 0 = Some "") /\
  (forall i, (1 <= i <= n)%nat ->
     mget st.1 i 0 =
       Z.of_nat i * dict_get (charmatrix cfg) ("", str1 !!! (i - 1)%nat)
                      (deletescore cfg) /\
     mget st.2 i 0 = Some "d") /\
  (forall j, (1 <= j <= m)%nat ->
     mget st.1 0 j =
       Z.of_nat j * dict_get (charmatrix cfg) (str2 !!! (j - 1)%nat, "")
                      (insertscore cfg) /\
     mget st.2 0 j = Some "i") /\
  (forall i j, (1 <= i <= n)%nat -> (1 <= j <= m)%nat ->
     cell_ok str1 str2 cfg st i j).
Proof.
  destruct (init_matrix_spec str1 str2 cfg) as (Hwm & Hm00 & Hmcol & Hmrow).
  destruct (init_steps_spec str1 str2) as (Hws & Hs00 & Hscol & Hsrow).
  simpl in *. unfold full_edit_distance, xrange.
  replace (n + 1 - 1)%nat with n by lia.
  destruct (fill_rows_spec (init_matrix str1 str2 cfg, init_steps str1 str2)
              (n + 1) n) as (Hsh & Hok & Hsame); [by split|lia|].
  simpl in Hsh, Hok, Hsame.
  set (st := foldl _ _ (seq 1 n)) in *.
  split; [done|]. split; [|split; [|split]].
  - destruct (Hsame 0%nat 0%nat) as [-> ->]; [lia|]. done.
  - intros i Hi. destruct (Hsame i 0%nat) as [-> ->]; [lia|]. simpl. auto.
  - intros j Hj. destruct (Hsame 0%nat j) as [-> ->]; [lia|]. simpl. auto.
  - done.
Qed.
End interior.

(** ** The operation recorded at a cell *)

Lemma py_min_3 {A} (key : A -> Z) (x y z : A) :
  py_min key x [y; z] =
    if decide (key x <= key y /\ key x <= key z) then x
    else if decide (key y <= key z) then y else z.
Proof. unfold py_min. simpl. repeat case_decide; try done; lia. Qed.

Lemma bestoption_cases (str1 str2 : list string) (cfg : costs)
    (matrix : list (list Z)) (i j : nat) :
  let '(s, i', d) := scores str1 str2 cfg matrix i j in
  bestoption str1 str2 cfg matrix i j =
    if decide (s.2 <= i'.2 /\ s.2 <= d.2) then s
    else if decide (i'.2 <= d.2) then i' else d.
Proof. unfold bestoption, scores. apply py_min_3. Qed.

Lemma tie_break_cell (str1 str2 : list string) (cfg : costs) (i j : nat) :
  (1 <= i <= length str1)%nat -> (1 <= j <= length str2)%nat ->
  str1 !!! (i - 1)%nat <> str2 !!! (j - 1)%nat ->
  let matrix := (full_edit_distance str1 str2 cfg).1 in
  let steps := (full_edit_distance str1 str2 cfg).2 in
  let pair := (str1 !!! (i - 1)%nat, str2 !!! (j - 1)%nat) in
  let sub := mget matrix (i - 1) (j - 1)
             + dict_get (charmatrix cfg) pair (substitutionscore cfg) in
  let ins := mget matrix i (j - 1)
             + dict_get (charmatrix cfg) pair (insertscore cfg) in
  let del := mget matrix (i - 1) j
             + dict_get (charmatrix cfg) pair (deletescore cfg) in
  mget steps i j =
    Some (if decide (sub <= ins /\ sub <= del) then "s"
          else if decide (ins <= del) then "i" else "d") /\
  mget matrix i j = Z.min sub (Z.min ins del).
Proof.
  intros Hi Hj Hne.
  destruct (full_edit_distance_spec str1 str2 cfg) as (_ & _ & _ & _ & Hok).
  specialize (Hok i j Hi Hj). cbv zeta in Hok.
  destruct (full_edit_distance str1 str2 cfg) as [matrix steps].
  unfold cell_ok in Hok. rewrite decide_False in Hok by done. simpl in Hok.
  pose proof (bestoption_cases str1 str2 cfg matrix i j) as Hbest.
  unfold scores in Hbest. simpl in Hbest.
  cbv zeta. cbn [fst snd].
  destruct Hok as [-> ->]. rewrite Hbest.
  repeat case_decide; simpl; split; (done || lia).
Qed.



Section steps.
Variable (str1 str2 : list string) (cfg : costs).

Local Abbreviation n := (length str1).
Local Abbreviation m := (length str2).

(** At an interior cell the operation matrix holds ['m'] exactly when the two
    units are equal, and one of ['s'], ['i'], ['d'] otherwise. *)
Lemma steps_interior i j :
  (1 <= i <= n)%nat -> (1 <= j <= m)%nat ->
  let op := mget (full_edit_distance str1 str2 cfg).2 i j in
  (op = Some "m" /\ str1 !!! (i - 1)%nat = str2 !!! (j - 1)%nat) \/
  (str1 !!! (i - 1)%nat <> str2 !!! (j - 1)%nat /\
   (op = Some "s" \/ op = Some "i" \/ op = Some "d")).
Proof.
  intros Hi Hj.
  destruct (full_edit_distance_spec str1 str2 cfg) as (_ & _ & _ & _ & Hok).
  specialize (Hok i j Hi Hj). cbv zeta in *. unfold cell_ok in Hok.
  case_decide as Heq; destruct Hok as [_ ->]; [by left|]. right.
  split; [done|].
  pose proof (bestoption_cases str1 str2 cfg
                (full_edit_distance str1 str2 cfg).1 i j) as Hbest.
  unfold scores in Hbest. rewrite Hbest.
  repeat case_decide; simpl; auto.
Qed.

Lemma steps_lookup i j :
  (i <= n)%nat -> (j <= m)%nat ->
  np_get2 (full_edit_distance str1 str2 cfg).2 (Z.of_nat i) (Z.of_nat j)
  = Some (mget (full_edit_distance str1 str2 cfg).2 i j).
Proof.
  intros Hi Hj.
  destruct (full_edit_distance_spec str1 str2 cfg) as ([_ Hws] & _).
  apply (np_get2_mget (n + 1) (m + 1)); (done || lia).
Qed.
End steps.

(** ** Edit scripts, one after the other *)

(** [H] says that a script whose first operation has been looked at is
    accepted: name the result of the rest of the script, [Hr], and read the
    emitted sequence and the cost off [H]. *)
Ltac replay_rest H Hr :=
  match type of H with
  | context [replay ?c ?ops ?u ?v] =>
    destruct (replay c ops u v) as [[? ?]|] eqn:Hr; [|done];
    simpl in H; injection H as <- <-
  end.

Lemma replay_app (cfg : costs) (ops ops' u v u' v' o o' : list string) (k k' : Z) :
  replay cfg ops u v = Some (o, k) ->
  replay cfg ops' u' v' = Some (o', k') ->
  replay cfg (ops ++ ops') (u ++ u') (v ++ v') = Some (o ++ o', k + k').
Proof.
  intros Hops Hops'. revert u v o k Hops.
  induction ops as [|op ops IH]; intros u v o k Hops; simpl in Hops.
  - destruct u, v; try done. injection Hops as <- <-. simpl.
    by rewrite Z.add_0_l.
  - simpl. repeat case_decide; try done.
    + destruct u as [|x u], v as [|y v]; try done. simpl.
      case_decide; [|done]. replay_rest Hops Hr.
      by rewrite (IH _ _ _ _ Hr).
    + destruct u as [|x u], v as [|y v]; try done. simpl.
      replay_rest Hops Hr.
      rewrite (IH _ _ _ _ Hr). simpl. do 2 f_equal. lia.
    + destruct v as [|y v]; try done. simpl.
      replay_rest Hops Hr.
      rewrite (IH _ _ _ _ Hr). simpl. do 2 f_equal. lia.
    + destruct u as [|x u]; try done. simpl.
      replay_rest Hops Hr.
      rewrite (IH _ _ _ _ Hr). simpl. do 2 f_equal. lia.
Qed.

Lemma take_snoc (l : list string) (i : nat) :
  (1 <= i <= length l)%nat -> take i l = take (i - 1) l ++ [l !!! (i - 1)%nat].
Proof.
  intros Hi. replace i with (S (i - 1)) at 1 by lia.
  apply take_S_r. apply list_lookup_lookup_total_lt. lia.
Qed.

(** ** The backtrace of [align] *)

Section backtrace.
Variable (str1 str2 : list string) (cfg : costs).

Local Abbreviation n := (length str1).
Local Abbreviation m := (length str2).
Local Abbreviation steps := (full_edit_distance str1 str2 cfg).2.

(** From any cell inside the matrix the loop stops, given as many turns as
    the cell is far from the origin plus one; what it puts in front of [path]
    is a script that turns the first [i] units of [str1] into the first [j]
    units of [str2]. *)
Lemma backtrace_spec (cfg' : costs) (fuel i j : nat) (path : list string) :
  (i <= n)%nat -> (j <= m)%nat -> (i + j < fuel)%nat ->
  exists ops k,
    backtrace fuel steps (Z.of_nat i) (Z.of_nat j) path = Ok (ops ++ path) /\
    (length ops <= i + j)%nat /\
    replay cfg' ops (take i str1) (take j str2) = Some (take j str2, k).
Proof.
  revert i j path. induction fuel as [|fuel IH]; intros i j path Hi Hj Hfuel;
    [lia|].
  simpl. rewrite steps_lookup by done.
  destruct (full_edit_distance_spec str1 str2 cfg)
    as (_ & [_ H00] & Hcol & Hrow & _).
  assert (Hkd : key !! "d" = Some (-1, 0)) by reflexivity.
  assert (Hki : key !! "i" = Some (0, -1)) by reflexivity.
  assert (Hkm : key !! "m" = Some (-1, -1)) by reflexivity.
  assert (Hks : key !! "s" = Some (-1, -1)) by reflexivity.
  assert (Hdel : forall p, (1 <= i)%nat ->
    exists ops k,
      backtrace fuel steps (Z.of_nat i + -1) (Z.of_nat j + 0) ("d" :: p)
        = Ok (ops ++ p) /\
      (length ops <= i + j)%nat /\
      replay cfg' ops (take i str1) (take j str2) = Some (take j str2, k)).
  { intros p Hi1.
    replace (Z.of_nat i + -1) with (Z.of_nat (i - 1)) by lia.
    rewrite Z.add_0_r.
    destruct (IH (i - 1)%nat j ("d" :: p)) as (ops & k & Hrun & Hlen & Hrep);
      [lia..|].
    exists (ops ++ ["d"]), (k + (op_cost cfg' "d" (str1 !!! (i - 1)%nat) "" + 0)).
    split; [by rewrite <- app_assoc|]. split; [rewrite length_app; simpl; lia|].
    rewrite (take_snoc str1 i) by lia.
    rewrite <- (app_nil_r (take j str2)) at 1.
    rewrite <- (app_nil_r (take j str2)) at 2.
    by apply replay_app. }
  assert (Hins : forall p, (1 <= j)%nat ->
    exists ops k,
      backtrace fuel steps (Z.of_nat i + 0) (Z.of_nat j + -1) ("i" :: p)
        = Ok (ops ++ p) /\
      (length ops <= i + j)%nat /\
      replay cfg' ops (take i str1) (take j str2) = Some (take j str2, k)).
  { intros p Hj1.
    replace (Z.of_nat j + -1) with (Z.of_nat (j - 1)) by lia.
    rewrite Z.add_0_r.
    destruct (IH i (j - 1)%nat ("i" :: p)) as (ops & k & Hrun & Hlen & Hrep);
      [lia..|].
    exists (ops ++ ["i"]), (k + (op_cost cfg' "i" "" (str2 !!! (j - 1)%nat) + 0)).
    split; [by rewrite <- app_assoc|]. split; [rewrite length_app; simpl; lia|].
    rewrite (take_snoc str2 j) by lia.
    rewrite <- (app_nil_r (take i str1)).
    by apply replay_app. }
  assert (Hdiag : forall op p, (1 <= i)%nat -> (1 <= j)%nat ->
    (op = "s" \/ op = "m" /\ str1 !!! (i - 1)%nat = str2 !!! (j - 1)%nat) ->
    exists ops k,
      backtrace fuel steps (Z.of_nat i + -1) (Z.of_nat j + -1) (op :: p)
        = Ok (ops ++ p) /\
      (length ops <= i + j)%nat /\
      replay cfg' ops (take i str1) (take j str2) = Some (take j str2, k)).
  { intros op p Hi1 Hj1 Hop.
    replace (Z.of_nat i + -1) with (Z.of_nat (i - 1)) by lia.
    replace (Z.of_nat j + -1) with (Z.of_nat (j - 1)) by lia.
    destruct (IH (i - 1)%nat (j - 1)%nat (op :: p))
      as (ops & k & Hrun & Hlen & Hrep); [lia..|].
    exists (ops ++ [op]).
    eexists (k + _).
    split; [by rewrite <- app_assoc|]. split; [rewrite length_app; simpl; lia|].
    rewrite (take_snoc str1 i), (take_snoc str2 j) by lia.
    apply replay_app; [done|].
    destruct Hop as [->|[-> Heq]]; simpl.
    - reflexivity.
    - rewrite decide_True by done. reflexivity. }
  destruct (decide (i = 0%nat)) as [->|Hi0];
    [destruct (decide (j = 0%nat)) as [->|Hj0]|
     destruct (decide (j = 0%nat)) as [->|Hj0]].
  - rewrite H00. simpl. exists [], 0. by rewrite !take_0.
  - destruct (Hrow j) as [_ ->]; [lia|]. simpl. rewrite Hki.
    apply Hins. lia.
  - destruct (Hcol i) as [_ ->]; [lia|]. simpl. rewrite Hkd.
    apply Hdel. lia.
  - destruct (steps_interior str1 str2 cfg i j) as [[-> Heq] | [_ [-> | [-> | ->]]]];
      [lia..| | | |]; simpl.
    + rewrite Hkm. apply Hdiag; auto with lia.
    + rewrite Hks. apply Hdiag; auto with lia.
    + rewrite Hki. apply Hins. lia.
    + rewrite Hkd. apply Hdel. lia.
Qed.
End backtrace.

Lemma backtrace_more_fuel (fuel fuel' : nat) steps (i j : Z) path path' :
  backtrace fuel steps i j path = Ok path' -> (fuel <= fuel')%nat ->
  backtrace fuel' steps i j path = Ok path'.
Proof.
  revert fuel' i j path. induction fuel as [|fuel IH];
    intros fuel' i j path Hrun Hle; [done|].
  destruct fuel' as [|fuel']; [lia|]. simpl in *.
  destruct (np_get2 steps i j) as [[op|]|]; try done.
  case_decide; [done|].
  destruct (key !! op) as [[di dj]|]; [|done].
  apply IH; [done|lia].
Qed.

Lemma align_fuel_spec (str1 str2 : list string) (cfg cfg' : costs) (fuel : nat) :
  (length str1 + length str2 < fuel)%nat ->
  exists path k,
    align_fuel fuel str1 str2 cfg = Ok path /\
    (length path <= length str1 + length str2)%nat /\
    replay cfg' path str1 str2 = Some (str2, k).
Proof.
  intros Hfuel. unfold align_fuel.
  destruct (full_edit_distance_spec str1 str2 cfg) as ([Hwm _] & _).
  destruct (backtrace_spec str1 str2 cfg cfg' fuel (length str1) (length str2) [])
    as (ops & k & Hrun & Hlen & Hrep); [lia..|].
  destruct (full_edit_distance str1 str2 cfg) as [matrix steps].
  simpl in Hwm, Hrun.
  rewrite (shape_well_shaped _ _ _ Hwm) by lia. simpl.
  replace (Z.of_nat (length str1 + 1) - 1) with (Z.of_nat (length str1)) by lia.
  replace (Z.of_nat (length str2 + 1) - 1) with (Z.of_nat (length str2)) by lia.
  exists ops, k. rewrite app_nil_r in Hrun.
  by rewrite !firstn_all in Hrep.
Qed.


(** C10: the operation matrix holds the empty operation at the origin, ['d']
    down column 0 and ['i'] along row 0; every other operation it holds moves
    the cursor to a cell of the matrix that is nearer the origin; and the
    loop of [align] returns, within [len(str1) + len(str2) + 1] turns. *)
Theorem align_terminates (str1 str2 : list string) (cfg : costs) :
  let steps := (full_edit_distance str1 str2 cfg).2 in
  let n := Z.of_nat (length str1) in
  let m := Z.of_nat (length str2) in
  np_get2 steps 0 0 = Some (Some "") /\
  (forall i, 1 <= i <= n -> np_get2 steps i 0 = Some (Some "d")) /\
  (forall j, 1 <= j <= m -> np_get2 steps 0 j = Some (Some "i")) /\
  (forall i j, 0 <= i <= n -> 0 <= j <= m ->
     exists op, np_get2 steps i j = Some (Some op) /\
       (op = "" /\ i = 0 /\ j = 0 \/
        op <> "" /\
        exists di dj, key !! op = Some (di, dj) /\
          0 <= i + di <= n /\ 0 <= j + dj <= m /\
          (i + di) + (j + dj) < i + j)) /\
  (exists path,
     align str1 str2 cfg = Ok path /\
     forall fuel, (length str1 + length str2 + 1 <= fuel)%nat ->
                  align_fuel fuel str1 str2 cfg = Ok path).
Proof.
  cbv zeta.
  destruct (full_edit_distance_spec str1 str2 cfg)
    as (_ & [_ H00] & Hcol & Hrow & _).
  assert (Hget : forall i j : Z,
    0 <= i <= Z.of_nat (length str1) -> 0 <= j <= Z.of_nat (length str2) ->
    np_get2 (full_edit_distance str1 str2 cfg).2 i j =
    Some (mget (full_edit_distance str1 str2 cfg).2 (Z.to_nat i) (Z.to_nat j))).
  { intros i j Hi Hj. rewrite <- (Z2Nat.id i), <- (Z2Nat.id j) at 1 by lia.
    apply steps_lookup; lia. }
  assert (Hcol' : forall i, 1 <= i <= Z.of_nat (length str1) ->
    np_get2 (full_edit_distance str1 str2 cfg).2 i 0 = Some (Some "d")).
  { intros i Hi. rewrite Hget by lia.
    destruct (Hcol (Z.to_nat i)) as [_ Hd]; [lia|]. by rewrite <- Hd. }
  assert (Hrow' : forall j, 1 <= j <= Z.of_nat (length str2) ->
    np_get2 (full_edit_distance str1 str2 cfg).2 0 j = Some (Some "i")).
  { intros j Hj. rewrite Hget by lia.
    destruct (Hrow (Z.to_nat j)) as [_ Hi]; [lia|]. by rewrite <- Hi. }
  split; [by rewrite Hget, <- H00 by lia|].
  split; [done|]. split; [done|]. split.
  - intros i j Hi Hj.
    destruct (decide (i = 0)) as [->|Hi0];
      [destruct (decide (j = 0)) as [->|Hj0]|
       destruct (decide (j = 0)) as [->|Hj0]].
    + exists "". split; [by rewrite Hget, <- H00 by lia|]. by left.
    + exists "i". split; [apply Hrow'; lia|]. right. split; [done|].
      exists 0, (-1). split; [reflexivity|lia].
    + exists "d". split; [apply Hcol'; lia|]. right. split; [done|].
      exists (-1), 0. split; [reflexivity|lia].
    + rewrite Hget by lia.
      destruct (steps_interior str1 str2 cfg (Z.to_nat i) (Z.to_nat j))
        as [[-> _] | [_ [-> | [-> | ->]]]]; [lia..| | | |].
      * exists "m". split; [done|]. right. split; [done|].
        exists (-1), (-1). split; [reflexivity|lia].
      * exists "s". split; [done|]. right. split; [done|].
        exists (-1), (-1). split; [reflexivity|lia].
      * exists "i". split; [done|]. right. split; [done|].
        exists 0, (-1). split; [reflexivity|lia].
      * exists "d". split; [done|]. right. split; [done|].
        exists (-1), 0. split; [reflexivity|lia].
  - destruct (align_fuel_spec str1 str2 cfg cfg
                (length str1 + length str2 + 1)) as (path & k & Hrun & _);
      [lia|].
    exists path. split; [done|]. intros fuel Hfuel.
    unfold align_fuel in *.
    destruct (full_edit_distance str1 str2 cfg) as [matrix steps].
    by eapply backtrace_more_fuel.
Qed.

Lemma align_terminates_witness :
  (1 <= 2 <= Z.of_nat (length (chars "ab"))) /\
  np_get2 (full_edit_distance (chars "ab") (chars "xb") default_costs).2 2 0
  = Some (Some "d").
Proof.
  split; [simpl; lia|].
  destruct (align_terminates (chars "ab") (chars "xb") default_costs)
    as (_ & Hcol & _).
  apply Hcol. simpl. lia.
Defined.

(** ** Worked examples *)

(** C7: on 'sitting' and 'kitten' [align] returns s, m, m, m, s, m, d; three
    of these are not matches, and [edit_distance] is 3. *)
Theorem align_sitting_kitten :
  align (chars "sitting") (chars "kitten") default_costs
    = Ok ["s"; "m"; "m"; "m"; "s"; "m"; "d"] /\
  length (filter (fun op => op <> "m") ["s"; "m"; "m"; "m"; "s"; "m"; "d"])
    = 3%nat /\
  edit_distance (chars "sitting") (chars "kitten") = 3.
Proof. vm_compute. done. Qed.

(** ** greek_filter *)

Lemma foldl_append {A B} (f : B -> A) (l : list B) (acc : list A) :
  foldl (fun cs i => cs ++ [f i]) acc l = acc ++ (f <$> l).
Proof.
  revert acc. induction l as [|x l IH]; intros acc; simpl.
  - by rewrite app_nil_r.
  - by rewrite IH, <- app_assoc.
Qed.

Lemma elem_of_range (lo hi c : Z) : c ∈ range lo hi <-> lo <= c < hi.
Proof. unfold range. rewrite elem_of_seqZ. lia. Qed.

Lemma elem_of_greek_chars (c : Z) : c ∈ greek_chars <-> greek_codepoint c.
Proof.
  unfold greek_chars, greek_codepoint. rewrite !foldl_append.
  unfold unichr. rewrite !list_fmap_id, !elem_of_app.
  unfold greek_and_coptic_range, extended_greek_range,
    combining_diacritical_mark_range, ord.
  rewrite !elem_of_range. lia.
Qed.

(** C9: [greek_filter] keeps, in their order and with their multiplicity,
    the characters whose code point lies in U+0370..U+03FF, U+1F00..U+1FFF
    or U+0300..U+0360, and nothing else. *)
Theorem greek_filter_spec (s : list Z) :
  greek_filter s = filter greek_codepoint s /\
  greek_filter s `sublist_of` s /\
  (forall c, c ∈ greek_filter s <-> c ∈ s /\ greek_codepoint c).
Proof.
  assert (Heq : greek_filter s = filter greek_codepoint s).
  { unfold greek_filter. apply list_filter_iff. apply elem_of_greek_chars. }
  split; [done|]. split.
  - rewrite Heq. apply sublist_filter.
  - intros c. rewrite Heq, list_elem_of_filter. tauto.
Qed.

(** ** Semi-global alignment *)

Lemma backtrace_no_usage_error (fuel : nat) steps (i j : Z) path :
  backtrace fuel steps i j path <> Raised NidabaAlgorithmException.
Proof.
  revert i j path. induction fuel as [|fuel IH]; intros i j path; simpl;
    [done|].
  destruct (np_get2 steps i j) as [[op|]|]; try done.
  case_decide; [done|]. destruct (key !! op) as [[di dj]|]; [apply IH|done].
Qed.

(** C5: when the first sequence is longer than the second, semi-global
    alignment raises the algorithm-usage error and returns no operation
    sequence; this is not what the call with the two sequences exchanged
    gives. *)
Theorem semi_global_align_order (seq1 seq2 : list string) (cfg : costs) :
  (length seq2 < length seq1)%nat ->
  semi_global_align seq1 seq2 cfg = Raised NidabaAlgorithmException /\
  (forall path, semi_global_align seq1 seq2 cfg <> Ok path) /\
  semi_global_align seq1 seq2 cfg <> semi_global_align seq2 seq1 cfg.
Proof.
  intros Hlen.
  assert (Hraise : semi_global_align seq1 seq2 cfg
                   = Raised NidabaAlgorithmException).
  { unfold semi_global_align. by rewrite decide_True by done. }
  rewrite Hraise. split; [done|]. split; [done|].
  unfold semi_global_align. rewrite decide_False by lia.
  destruct (foldl _ _ _) as [matrix steps].
  intros Heq. symmetry in Heq. by apply backtrace_no_usage_error in Heq.
Qed.

Lemma semi_global_align_order_witness :
  (length (chars "a") < length (chars "abc"))%nat /\
  semi_global_align (chars "abc") (chars "a") default_costs
  = Raised NidabaAlgorithmException.
Proof.
  split; [simpl; lia|].
  apply (semi_global_align_order (chars "abc") (chars "a") default_costs).
  simpl. lia.
Defined.

(** The model of semi-global alignment on the examples of the spec. *)
Example semi_global_align_prefix :
  semi_global_align (chars "b") (chars "aaaab") default_costs
    = Ok ["i"; "i"; "i"; "i"; "m"] /\
  semi_global_align (chars "b") (chars "aaaabcccc") default_costs
    = Ok ["i"; "i"; "i"; "i"; "m"].
Proof. vm_compute. done. Qed.

(** ** Bounds on [edit_distance] *)

Lemma lookup_slice_to_last {A} (l : list A) (j : nat) :
  (j + 1 < length l)%nat -> slice_to_last l !! j = l !! j.
Proof.
  intros Hj. unfold slice_to_last. rewrite removelast_firstn_len.
  apply lookup_take_lt. lia.
Qed.

Lemma length_slice_to_last {A} (l : list A) :
  length (slice_to_last l) = (length l - 1)%nat.
Proof.
  unfold slice_to_last. rewrite removelast_firstn_len, length_take. lia.
Qed.

Lemma lookup_total_cons_S (x : Z) (l : list Z) (j : nat) :
  (x :: l) !!! S j = l !!! j.
Proof. reflexivity. Qed.

Section rows.
Variable (str2 : list string).

Local Abbreviation m := (length str2).

Lemma matched_row_spec (previous_row : list Z) (s : string) :
  length previous_row = (m + 1)%nat ->
  let row := matched_row str2 previous_row s in
  length row = (m + 1)%nat /\
  row !!! 0%nat = previous_row !!! 0%nat + 1 /\
  (forall j, (j < m)%nat ->
     row !!! S j =
       Z.min (previous_row !!! S j + 1)
             (previous_row !!! j + if decide (str2 !!! j = s) then 0 else 1)).
Proof.
  intros Hlen. destruct previous_row as [|p0 ps]; [simpl in Hlen; lia|].
  unfold matched_row, np_add_scalar, np_minimum, np_add, slice_from1, np_ne.
  simpl in Hlen. cbn [fmap list_fmap assign_from1 tail]. cbv zeta.
  assert (Hps : length ps = m) by lia.
  split; [|split; [done|]].
  - cbn [length]. rewrite !length_zip_with, !length_fmap, length_slice_to_last.
    cbn [length]. lia.
  - intros j Hj. rewrite !lookup_total_cons_S.
    apply list_lookup_total_correct.
    rewrite !lookup_zip_with, list_lookup_fmap, lookup_slice_to_last
      by (cbn [length]; lia).
    rewrite list_lookup_fmap.
    rewrite (list_lookup_lookup_total_lt ps j) by lia.
    rewrite (list_lookup_lookup_total_lt (p0 :: ps) j) by (cbn [length]; lia).
    rewrite (list_lookup_lookup_total_lt str2 j) by lia.
    reflexivity.
Qed.

Lemma edit_distance_row_spec (previous_row : list Z) (s : string) :
  length previous_row = (m + 1)%nat ->
  let mid := matched_row str2 previous_row s in
  let row := edit_distance_row str2 previous_row s in
  length row = (m + 1)%nat /\
  row !!! 0%nat = mid !!! 0%nat /\
  (forall j, (j < m)%nat ->
     row !!! S j = Z.min (mid !!! S j) (mid !!! j + 1)).
Proof.
  intros Hlen. cbv zeta.
  destruct (matched_row_spec previous_row s Hlen) as (Hmid & _).
  change (edit_distance_row str2 previous_row s) with
    (let mid := matched_row str2 previous_row s in
     assign_from1 mid
       (np_minimum (slice_from1 mid) (np_add_scalar (slice_to_last mid) 1))).
  cbv zeta. set (mid := matched_row str2 previous_row s) in *.
  destruct mid as [|t0 ts] eqn:Emid; [simpl in Hmid; lia|].
  unfold np_minimum, np_add_scalar, slice_from1. simpl in Hmid.
  cbn [assign_from1 tail].
  split; [|split; [done|]].
  - cbn [length]. rewrite length_zip_with, length_fmap, length_slice_to_last.
    cbn [length]. lia.
  - intros j Hj. rewrite !lookup_total_cons_S.
    apply list_lookup_total_correct.
    rewrite lookup_zip_with, list_lookup_fmap, lookup_slice_to_last
      by (cbn [length]; lia).
    rewrite (list_lookup_lookup_total_lt ts j) by lia.
    rewrite (list_lookup_lookup_total_lt (t0 :: ts) j) by (cbn [length]; lia).
    reflexivity.
Qed.
End rows.

Lemma arange_lookup (len j : nat) : (j < len)%nat -> arange len !!! j = Z.of_nat j.
Proof.
  intros Hj. apply list_lookup_total_correct. unfold arange.
  rewrite list_lookup_fmap, lookup_seq_lt by done. reflexivity.
Qed.

Lemma last_item_lookup (row : list Z) (m : nat) :
  length row = (m + 1)%nat -> last_item row = row !!! m.
Proof.
  unfold last_item. revert m. induction row as [|x row IH]; intros m Hlen.
  - simpl in Hlen. lia.
  - destruct row as [|y row].
    + simpl in Hlen. by replace m with 0%nat by lia.
    + destruct m as [|m]; [simpl in Hlen; lia|].
      rewrite lookup_total_cons_S. rewrite <- (IH m) by (simpl in *; lia).
      reflexivity.
Qed.

Section bounds.
Variable (str2 : list string).

Local Abbreviation m := (length str2).

Lemma row_bounded_arange : row_bounded m 0 (arange (m + 1)).
Proof.
  split; [unfold arange; by rewrite length_fmap, length_seq|].
  intros j Hj. rewrite arange_lookup by lia. lia.
Qed.

Lemma row_bounded_step (i : Z) (previous_row : list Z) (s : string) :
  0 <= i -> row_bounded m i previous_row ->
  row_bounded m (i + 1) (edit_distance_row str2 previous_row s).
Proof.
  intros Hi [Hlen Hprev].
  destruct (matched_row_spec str2 previous_row s Hlen) as (_ & Hmid0 & Hmid).
  destruct (edit_distance_row_spec str2 previous_row s Hlen)
    as (Hlen' & Hrow0 & Hrow).
  cbv zeta in *. split; [done|]. intros j Hj.
  destruct j as [|j].
  - rewrite Hrow0, Hmid0. specialize (Hprev 0%nat). lia.
  - rewrite Hrow, Hmid by lia.
    pose proof (Hprev (S j) ltac:(lia)) as HSj.
    pose proof (Hprev j ltac:(lia)) as Hj'.
    destruct j as [|j'].
    + rewrite Hmid0. case_decide; lia.
    + rewrite Hmid by lia.
      pose proof (Hprev j' ltac:(lia)) as Hj''.
      repeat case_decide; lia.
Qed.

Lemma row_bounded_foldl (str1 : list string) (i : Z) (previous_row : list Z) :
  0 <= i -> row_bounded m i previous_row ->
  row_bounded m (i + Z.of_nat (length str1))
    (foldl (edit_distance_row str2) previous_row str1).
Proof.
  revert i previous_row.
  induction str1 as [|s str1 IH]; intros i previous_row Hi Hprev.
  - simpl. by rewrite Z.add_0_r.
  - cbn [foldl length].
    replace (i + Z.of_nat (S (length str1)))
      with (i + 1 + Z.of_nat (length str1)) by lia.
    apply IH; [lia|]. by apply row_bounded_step.
Qed.

Lemma edit_distance_ordered_bounds (str1 : list string) :
  Z.abs (Z.of_nat (length str1) - Z.of_nat m)
    <= edit_distance_ordered str1 str2
    <= Z.max (Z.of_nat (length str1)) (Z.of_nat m).
Proof.
  unfold edit_distance_ordered. case_decide as Hm; [lia|].
  destruct (row_bounded_foldl str1 0 (arange (m + 1)))
    as [Hlen Hrow]; [lia|apply row_bounded_arange|].
  rewrite (last_item_lookup _ m) by done.
  specialize (Hrow m). lia.
Qed.
End bounds.

(** C8: [edit_distance] is not negative, at least the difference of the two
    lengths and at most the larger of them. *)
Theorem edit_distance_bounds (a b : list string) :
  0 <= edit_distance a b /\
  Z.abs (Z.of_nat (length a) - Z.of_nat (length b)) <= edit_distance a b /\
  edit_distance a b <= Z.max (Z.of_nat (length a)) (Z.of_nat (length b)).
Proof.
  unfold edit_distance. case_decide.
  - pose proof (edit_distance_ordered_bounds a b). lia.
  - pose proof (edit_distance_ordered_bounds b a). lia.
Qed.

(** ** The scoring matrix under scalar, non-negative costs *)

Lemma drop_cons_inv {A} (l l' : list A) (x : A) (k : nat) :
  drop k l = x :: l' -> l !! k = Some x /\ l' = drop (S k) l.
Proof.
  intros Hdrop.
  assert (Hx : l !! k = Some x).
  { pose proof (lookup_drop l k 0) as Hl. rewrite Hdrop in Hl.
    rewrite Nat.add_0_r in Hl. by rewrite <- Hl. }
  split; [done|]. rewrite (drop_S _ _ _ Hx) in Hdrop. congruence.
Qed.

Lemma drop_take_cons_inv (l l' : list string) (x : string) (k i : nat) :
  drop k (take i l) = x :: l' ->
  (k < i)%nat /\ (k < length l)%nat /\ x = l !!! k /\
  l' = drop (S k) (take i l).
Proof.
  intros [Hx ->]%drop_cons_inv.
  apply lookup_take_Some in Hx as [Hx Hk].
  split; [done|]. split; [by eapply lookup_lt_Some|].
  split; [|done]. symmetry. by apply list_lookup_total_correct.
Qed.

Section scalar_costs.
Variable (str1 str2 : list string) (cfg : costs).
Hypothesis no_overrides : charmatrix cfg = ∅.
Hypothesis sub_nonneg : 0 <= substitutionscore cfg.
Hypothesis ins_nonneg : 0 <= insertscore cfg.
Hypothesis del_nonneg : 0 <= deletescore cfg.

Local Abbreviation n := (length str1).
Local Abbreviation m := (length str2).
Local Abbreviation matrix := (full_edit_distance str1 str2 cfg).1.
Local Abbreviation sub := (substitutionscore cfg).
Local Abbreviation ins := (insertscore cfg).
Local Abbreviation del := (deletescore cfg).

Lemma dict_get_no_overrides (k : string * string) (d : Z) :
  dict_get (charmatrix cfg) k d = d.
Proof. unfold dict_get. by rewrite no_overrides, lookup_empty. Qed.

Lemma op_cost_scalar (op x y : string) :
  op_cost cfg op x y =
    if decide (op = "m") then 0
    else if decide (op = "s") then sub
    else if decide (op = "i") then ins else del.
Proof. unfold op_cost. by rewrite !dict_get_no_overrides. Qed.

Lemma matrix_col0 i : (i <= n)%nat -> mget matrix i 0 = Z.of_nat i * del.
Proof.
  intros Hi.
  destruct (full_edit_distance_spec str1 str2 cfg) as (_ & [H00 _] & Hcol & _).
  destruct i as [|i]; [by rewrite H00|].
  destruct (Hcol (S i)) as [-> _]; [lia|]. by rewrite dict_get_no_overrides.
Qed.

Lemma matrix_row0 j : (j <= m)%nat -> mget matrix 0 j = Z.of_nat j * ins.
Proof.
  intros Hj.
  destruct (full_edit_distance_spec str1 str2 cfg)
    as (_ & [H00 _] & _ & Hrow & _).
  destruct j as [|j]; [by rewrite H00|].
  destruct (Hrow (S j)) as [-> _]; [lia|]. by rewrite dict_get_no_overrides.
Qed.

Lemma matrix_interior i j :
  (1 <= i <= n)%nat -> (1 <= j <= m)%nat ->
  mget matrix i j =
    if decide (str1 !!! (i - 1)%nat = str2 !!! (j - 1)%nat)
    then mget matrix (i - 1) (j - 1)
    else Z.min (mget matrix (i - 1) (j - 1) + sub)
               (Z.min (mget matrix i (j - 1) + ins)
                      (mget matrix (i - 1) j + del)).
Proof.
  intros Hi Hj. case_decide as Heq.
  - destruct (full_edit_distance_spec str1 str2 cfg) as (_ & _ & _ & _ & Hok).
    specialize (Hok i j Hi Hj). unfold cell_ok in Hok.
    rewrite decide_True in Hok by done. by destruct Hok.
  - destruct (tie_break_cell str1 str2 cfg i j Hi Hj Heq) as [_ Hcell].
    by rewrite !dict_get_no_overrides in Hcell.
Qed.
(** Neighbouring cells differ by no more than the cost of the step between
    them, in either direction. *)
Lemma matrix_steps_bounded (s i j : nat) :
  (i + j = s)%nat -> (i <= n)%nat -> (j <= m)%nat ->
  ((1 <= j)%nat -> mget matrix i j <= mget matrix i (j - 1) + ins) /\
  ((1 <= i)%nat -> mget matrix i j <= mget matrix (i - 1) j + del) /\
  ((1 <= j)%nat -> mget matrix i (j - 1) <= mget matrix i j + del) /\
  ((1 <= i)%nat -> mget matrix (i - 1) j <= mget matrix i j + ins).
Proof using All.
  revert i j. induction s as [s IH] using lt_wf_ind. intros i j Hs Hi Hj.
  destruct (decide (i = 0%nat)) as [->|Hi0].
  { repeat split; try lia; intros Hj1;
      rewrite !matrix_row0 by lia; nia. }
  destruct (decide (j = 0%nat)) as [->|Hj0].
  { repeat split; try lia; intros Hi1;
      rewrite !matrix_col0 by lia; nia. }
  destruct (IH (i + (j - 1))%nat ltac:(lia) i (j - 1)%nat)
    as (_ & Hv & _ & Hv'); [lia..|].
  destruct (IH (i - 1 + j)%nat ltac:(lia) (i - 1)%nat j)
    as (Hh & _ & Hh' & _); [lia..|].
  rewrite (matrix_interior i j) by lia.
  case_decide; repeat split; intros; lia.
Qed.

Lemma matrix_diagonal_bounded (i j : nat) :
  (1 <= i <= n)%nat -> (1 <= j <= m)%nat ->
  mget matrix i j <= mget matrix (i - 1) (j - 1) + sub /\
  (str1 !!! (i - 1)%nat = str2 !!! (j - 1)%nat ->
   mget matrix i j <= mget matrix (i - 1) (j - 1)).
Proof using All.
  intros Hi Hj. rewrite (matrix_interior i j) by lia.
  case_decide; split; intros; (done || lia).
Qed.

(** No script is cheaper than the cell: a script that leads from cell
    [(i0, j0)] to cell [(i, j)] costs at least the difference of the two. *)
Lemma replay_lower_bound (ops : list string) (i0 j0 i j : nat)
    (out : list string) (k : Z) :
  (i0 <= i <= n)%nat -> (j0 <= j <= m)%nat ->
  replay cfg ops (drop i0 (take i str1)) (drop j0 (take j str2)) = Some (out, k) ->
  mget matrix i j <= mget matrix i0 j0 + k.
Proof using All.
  revert i0 j0 out k.
  induction ops as [|op ops IH]; intros i0 j0 out k Hi Hj Hrun; simpl in Hrun.
  - destruct (drop i0 (take i str1)) eqn:Hu; [|done].
    destruct (drop j0 (take j str2)) eqn:Hv; [|done].
    injection Hrun as <- <-.
    apply (f_equal length) in Hu, Hv.
    rewrite length_drop, length_take in Hu, Hv. simpl in Hu, Hv.
    replace i0 with i by lia. replace j0 with j by lia. lia.
  - repeat case_decide; try done; subst op.
    + destruct (drop i0 (take i str1)) as [|x u] eqn:Hu; [done|].
      destruct (drop j0 (take j str2)) as [|y v] eqn:Hv; [done|].
      case_decide as Hxy; [|done].
      apply drop_take_cons_inv in Hu as (Hi0 & _ & -> & ->).
      apply drop_take_cons_inv in Hv as (Hj0 & _ & -> & ->).
      replay_rest Hrun Hr. apply IH in Hr; [|lia..].
      destruct (matrix_diagonal_bounded (S i0) (S j0)) as [_ Hd]; [lia..|].
      replace (S i0 - 1)%nat with i0 in Hd by lia.
      replace (S j0 - 1)%nat with j0 in Hd by lia.
      specialize (Hd Hxy). lia.
    + destruct (drop i0 (take i str1)) as [|x u] eqn:Hu; [done|].
      destruct (drop j0 (take j str2)) as [|y v] eqn:Hv; [done|].
      apply drop_take_cons_inv in Hu as (Hi0 & _ & -> & ->).
      apply drop_take_cons_inv in Hv as (Hj0 & _ & -> & ->).
      replay_rest Hrun Hr. apply IH in Hr; [|lia..].
      destruct (matrix_diagonal_bounded (S i0) (S j0)) as [Hd _]; [lia..|].
      replace (S i0 - 1)%nat with i0 in Hd by lia.
      replace (S j0 - 1)%nat with j0 in Hd by lia.
      rewrite op_cost_scalar. simpl. lia.
    + destruct (drop j0 (take j str2)) as [|y v] eqn:Hv; [done|].
      apply drop_take_cons_inv in Hv as (Hj0 & _ & -> & ->).
      replay_rest Hrun Hr. apply IH in Hr; [|lia..].
      destruct (matrix_steps_bounded (i0 + S j0) i0 (S j0)) as [Hh _]; [lia..|].
      replace (S j0 - 1)%nat with j0 in Hh by lia.
      rewrite op_cost_scalar. simpl. lia.
    + destruct (drop i0 (take i str1)) as [|x u] eqn:Hu; [done|].
      apply drop_take_cons_inv in Hu as (Hi0 & _ & -> & ->).
      replay_rest Hrun Hr. apply IH in Hr; [|lia..].
      destruct (matrix_steps_bounded (S i0 + j0) (S i0) j0) as (_ & Hv' & _);
        [lia..|].
      replace (S i0 - 1)%nat with i0 in Hv' by lia.
      rewrite op_cost_scalar. simpl. lia.
Qed.

(** Every cell is the cost of some script. *)
Lemma replay_attains (s i j : nat) :
  (i + j = s)%nat -> (i <= n)%nat -> (j <= m)%nat ->
  exists ops out,
    replay cfg ops (take i str1) (take j str2) = Some (out, mget matrix i j).
Proof using All.
  revert i j. induction s as [s IH] using lt_wf_ind. intros i j Hs Hi Hj.
  assert (Hdel : (1 <= i)%nat ->
    exists ops out, replay cfg ops (take i str1) (take j str2)
                    = Some (out, mget matrix (i - 1) j + del)).
  { intros Hi1.
    destruct (IH (i - 1 + j)%nat ltac:(lia) (i - 1)%nat j)
      as (ops & out & Hrep); [lia..|].
    exists (ops ++ ["d"]), (out ++ []).
    rewrite (take_snoc str1 i) by lia.
    rewrite <- (app_nil_r (take j str2)).
    apply replay_app; [done|]. simpl.
    rewrite op_cost_scalar. simpl. by rewrite Z.add_0_r. }
  assert (Hins : (1 <= j)%nat ->
    exists ops out, replay cfg ops (take i str1) (take j str2)
                    = Some (out, mget matrix i (j - 1) + ins)).
  { intros Hj1.
    destruct (IH (i + (j - 1))%nat ltac:(lia) i (j - 1)%nat)
      as (ops & out & Hrep); [lia..|].
    exists (ops ++ ["i"]), (out ++ [str2 !!! (j - 1)%nat]).
    rewrite (take_snoc str2 j) by lia.
    rewrite <- (app_nil_r (take i str1)).
    apply replay_app; [done|]. simpl.
    rewrite op_cost_scalar. simpl. by rewrite Z.add_0_r. }
  destruct (decide (i = 0%nat)) as [->|Hi0].
  { destruct (decide (j = 0%nat)) as [->|Hj0].
    - exists [], []. rewrite !take_0. simpl. by rewrite matrix_row0 by lia.
    - destruct Hins as (ops & out & Hrep); [lia|]. exists ops, out.
      rewrite Hrep. rewrite !matrix_row0 by lia. do 2 f_equal. nia. }
  destruct (decide (j = 0%nat)) as [->|Hj0].
  { destruct Hdel as (ops & out & Hrep); [lia|]. exists ops, out.
    rewrite Hrep. rewrite !matrix_col0 by lia. do 2 f_equal. nia. }
  destruct (IH (i - 1 + (j - 1))%nat ltac:(lia) (i - 1)%nat (j - 1)%nat)
    as (ops & out & Hrep); [lia..|].
  rewrite (matrix_interior i j) by lia. case_decide as Heq.
  - exists (ops ++ ["m"]), (out ++ [str2 !!! (j - 1)%nat]).
    rewrite (take_snoc str1 i), (take_snoc str2 j) by lia.
    rewrite <- (Z.add_0_r (mget matrix _ _)).
    apply replay_app; [done|]. simpl. by rewrite decide_True by done.
  - destruct (Z.min_spec (mget matrix (i - 1) (j - 1) + sub)
                (Z.min (mget matrix i (j - 1) + ins)
                       (mget matrix (i - 1) j + del))) as [[_ ->]|[_ ->]].
    + exists (ops ++ ["s"]), (out ++ [str2 !!! (j - 1)%nat]).
      rewrite (take_snoc str1 i), (take_snoc str2 j) by lia.
      apply replay_app; [done|]. simpl.
      rewrite op_cost_scalar. simpl. by rewrite Z.add_0_r.
    + destruct (Z.min_spec (mget matrix i (j - 1) + ins)
                  (mget matrix (i - 1) j + del)) as [[_ ->]|[_ ->]].
      * apply Hins. lia.
      * apply Hdel. lia.
Qed.
End scalar_costs.




(** ** [edit_distance] against the scoring matrix *)

(** With the default costs the bottom-right cell of the scoring matrix is
    the Levenshtein distance of the two sequences. *)
Lemma full_corner_is_levenshtein (a b : list string) :
  is_min_script_cost default_costs a b
    (mget (full_edit_distance a b default_costs).1 (length a) (length b)).
Proof.
  split.
  - destruct (replay_attains a b default_costs) with
      (s := (length a + length b)%nat) (i := length a) (j := length b)
      as (ops & out & Hrep); [done || lia..|].
    rewrite !firstn_all in Hrep. by exists ops, out.
  - intros ops out k Hrep.
    pose proof (replay_lower_bound a b default_costs) as Hlow.
    specialize (Hlow eq_refl ltac:(simpl; lia) ltac:(simpl; lia)
                     ltac:(simpl; lia) ops 0%nat 0%nat (length a) (length b)
                     out k).
    rewrite !drop_0, !firstn_all in Hlow.
    specialize (Hlow ltac:(lia) ltac:(lia) Hrep).
    rewrite matrix_row0 in Hlow by (done || lia). lia.
Qed.

(** C3: on 'ccabb' and 'abbaa' the bottom-right cell of the scoring matrix
    is 4, the Levenshtein distance, while [edit_distance] returns 5. *)
Theorem full_corner_differs_from_edit_distance :
  mget (full_edit_distance (chars "ccabb") (chars "abbaa") default_costs).1 5 5
    = 4 /\
  is_min_script_cost default_costs (chars "ccabb") (chars "abbaa") 4 /\
  edit_distance (chars "ccabb") (chars "abbaa") = 5.
Proof.
  assert (Hcorner :
    mget (full_edit_distance (chars "ccabb") (chars "abbaa") default_costs).1
         5 5 = 4) by (vm_compute; done).
  split; [done|]. split.
  - rewrite <- Hcorner.
    apply (full_corner_is_levenshtein (chars "ccabb") (chars "abbaa")).
  - vm_compute. done.
Qed.

(** C6: [edit_distance] of 'abbaa' and 'ccabb' is 4 in one order and 5 in
    the other. *)
Theorem edit_distance_not_symmetric :
  edit_distance (chars "abbaa") (chars "ccabb") = 4 /\
  edit_distance (chars "ccabb") (chars "abbaa") = 5.
Proof. split; vm_compute; done. Qed.

(** * Further properties *)

(** ** What an accepted script looks like *)

Lemma replay_accepts (cfg : costs) (ops a b out : list string) (k : Z) :
  replay cfg ops a b = Some (out, k) ->
  out = b /\
  length (filter (fun op => op <> "i") ops) = length a /\
  length (filter (fun op => op <> "d") ops) = length b /\
  Forall (fun op => op ∈ ["m"; "s"; "i"; "d"]) ops.
Proof.
  revert a b out k. induction ops as [|op ops IH]; intros a b out k Hrun;
    simpl in Hrun.
  - destruct a, b; try done. by injection Hrun as <- <-.
  - repeat case_decide; try done; subst op.
    + destruct a as [|x a], b as [|y b]; try done.
      case_decide; [|done]. replay_rest Hrun Hr.
      apply IH in Hr as (-> & Ha & Hb & Hops).
      rewrite !filter_cons_True by done. simpl.
      repeat split; try congruence. constructor; [repeat constructor|done].
    + destruct a as [|x a], b as [|y b]; try done.
      replay_rest Hrun Hr. apply IH in Hr as (-> & Ha & Hb & Hops).
      rewrite !filter_cons_True by done. simpl.
      repeat split; try congruence. constructor; [repeat constructor|done].
    + destruct b as [|y b]; try done.
      replay_rest Hrun Hr. apply IH in Hr as (-> & Ha & Hb & Hops).
      rewrite filter_cons_False by (intros Hne; by apply Hne).
      rewrite filter_cons_True by done. simpl.
      repeat split; try congruence. constructor; [repeat constructor|done].
    + destruct a as [|x a]; try done.
      replay_rest Hrun Hr. apply IH in Hr as (-> & Ha & Hb & Hops).
      rewrite filter_cons_True by done.
      rewrite filter_cons_False by (intros Hne; by apply Hne). simpl.
      repeat split; try congruence. constructor; [repeat constructor|done].
Qed.


(** X2: the sequence [align] returns holds only ['m'], ['s'], ['i'] and
    ['d']; its operations other than ['i'] are as many as the units of the
    first input, those other than ['d'] as many as the units of the second;
    so its length lies between the longer input and the two together. *)
Theorem align_path_counts (str1 str2 : list string) (cfg : costs) :
  exists path,
    align str1 str2 cfg = Ok path /\
    Forall (fun op => op ∈ ["m"; "s"; "i"; "d"]) path /\
    length (filter (fun op => op <> "i") path) = length str1 /\
    length (filter (fun op => op <> "d") path) = length str2 /\
    (length str1 `max` length str2 <= length path
     <= length str1 + length str2)%nat.
Proof.
  destruct (align_fuel_spec str1 str2 cfg cfg
              (length str1 + length str2 + 1))
    as (path & k & Hrun & Hlen & Hrep); [lia|].
  exists path. split; [done|].
  apply replay_accepts in Hrep as (_ & Ha & Hb & Hops).
  pose proof (length_filter (fun op => op <> "i") path).
  pose proof (length_filter (fun op => op <> "d") path).
  repeat split; try done; lia.
Qed.

(** ** [align] on the edges *)

Section straight_paths.
Variable (str1 str2 : list string) (cfg : costs).

Local Abbreviation n := (length str1).
Local Abbreviation m := (length str2).
Local Abbreviation steps := (full_edit_distance str1 str2 cfg).2.

Lemma backtrace_col0 (i fuel : nat) (path : list string) :
  (i <= n)%nat -> (i < fuel)%nat ->
  backtrace fuel steps (Z.of_nat i) 0 path = Ok (replicate i "d" ++ path).
Proof.
  destruct (full_edit_distance_spec str1 str2 cfg)
    as (_ & [_ H00] & Hcol & _).
  revert fuel path. induction i as [|i IH]; intros fuel path Hi Hfuel;
    (destruct fuel as [|fuel]; [lia|]); cbn [backtrace].
  - pose proof (steps_lookup str1 str2 cfg 0 0) as Hget.
    change (Z.of_nat 0) with 0 in *.
    rewrite Hget, H00 by lia. done.
  - pose proof (steps_lookup str1 str2 cfg (S i) 0) as Hget.
    change (Z.of_nat 0) with 0 in Hget. rewrite Hget by lia.
    destruct (Hcol (S i)) as [_ ->]; [lia|].
    rewrite decide_False by done.
    assert (key !! "d" = Some (-1, 0)) as -> by reflexivity.
    replace (Z.of_nat (S i) + -1) with (Z.of_nat i) by lia.
    rewrite Z.add_0_l, IH by lia. by rewrite replicate_S_end, <- app_assoc.
Qed.

Lemma backtrace_row0 (j fuel : nat) (path : list string) :
  (j <= m)%nat -> (j < fuel)%nat ->
  backtrace fuel steps 0 (Z.of_nat j) path = Ok (replicate j "i" ++ path).
Proof.
  destruct (full_edit_distance_spec str1 str2 cfg)
    as (_ & [_ H00] & _ & Hrow & _).
  revert fuel path. induction j as [|j IH]; intros fuel path Hj Hfuel;
    (destruct fuel as [|fuel]; [lia|]); cbn [backtrace].
  - pose proof (steps_lookup str1 str2 cfg 0 0) as Hget.
    change (Z.of_nat 0) with 0 in *.
    rewrite Hget, H00 by lia. done.
  - pose proof (steps_lookup str1 str2 cfg 0 (S j)) as Hget.
    change (Z.of_nat 0) with 0 in Hget. rewrite Hget by lia.
    destruct (Hrow (S j)) as [_ ->]; [lia|].
    rewrite decide_False by done.
    assert (key !! "i" = Some (0, -1)) as -> by reflexivity.
    replace (Z.of_nat (S j) + -1) with (Z.of_nat j) by lia.
    rewrite Z.add_0_l, IH by lia. by rewrite replicate_S_end, <- app_assoc.
Qed.

Lemma backtrace_diagonal (i fuel : nat) (path : list string) :
  (i <= n)%nat -> (i <= m)%nat -> (i < fuel)%nat ->
  (forall k, (k < i)%nat -> str1 !!! k = str2 !!! k) ->
  backtrace fuel steps (Z.of_nat i) (Z.of_nat i) path
  = Ok (replicate i "m" ++ path).
Proof.
  destruct (full_edit_distance_spec str1 str2 cfg) as (_ & [_ H00] & _).
  revert fuel path. induction i as [|i IH]; intros fuel path Hi Hi' Hfuel Heq;
    (destruct fuel as [|fuel]; [lia|]); cbn [backtrace].
  - pose proof (steps_lookup str1 str2 cfg 0 0) as Hget.
    change (Z.of_nat 0) with 0 in *.
    rewrite Hget, H00 by lia. done.
  - rewrite steps_lookup by lia.
    destruct (steps_interior str1 str2 cfg (S i) (S i)) as [[-> _]|[Hne _]];
      [lia..| |].
    + rewrite decide_False by done.
      assert (key !! "m" = Some (-1, -1)) as -> by reflexivity.
      replace (Z.of_nat (S i) + -1) with (Z.of_nat i) by lia.
      rewrite IH by (lia || auto with lia). by rewrite replicate_S_end, <- app_assoc.
    + exfalso. apply Hne. replace (S i - 1)%nat with i by lia. apply Heq. lia.
Qed.
End straight_paths.

(** X3: against an empty second sequence [align] returns one ['d'] per unit
    of the first, and against an empty first sequence one ['i'] per unit of
    the second, whatever the costs. *)
Theorem align_empty (s : list string) (cfg : costs) :
  align s [] cfg = Ok (replicate (length s) "d") /\
  align [] s cfg = Ok (replicate (length s) "i").
Proof.
  split.
  - unfold align, align_fuel.
    destruct (full_edit_distance_spec s [] cfg) as ([Hwm _] & _).
    pose proof (backtrace_col0 s [] cfg (length s) (length s + 0 + 1) [])
      as Hrun.
    destruct (full_edit_distance s [] cfg) as [matrix steps].
    simpl in Hwm, Hrun. rewrite (shape_well_shaped _ _ _ Hwm) by lia. simpl.
    replace (Z.of_nat (length s + 1) - 1) with (Z.of_nat (length s)) by lia.
    change (Z.of_nat 1 - 1) with 0.
    rewrite Hrun by lia. by rewrite app_nil_r.
  - unfold align, align_fuel.
    destruct (full_edit_distance_spec [] s cfg) as ([Hwm _] & _).
    pose proof (backtrace_row0 [] s cfg (length s) (0 + length s + 1) [])
      as Hrun.
    destruct (full_edit_distance [] s cfg) as [matrix steps].
    simpl in Hwm, Hrun. rewrite (shape_well_shaped _ _ _ Hwm) by lia. simpl.
    replace (Z.of_nat (length s + 1) - 1) with (Z.of_nat (length s)) by lia.
    change (Z.of_nat 1 - 1) with 0.
    rewrite Hrun by lia. by rewrite app_nil_r.
Qed.

(** X4: of a sequence and itself [align] returns one ['m'] per unit,
    whatever the costs. *)
Theorem align_same (s : list string) (cfg : costs) :
  align s s cfg = Ok (replicate (length s) "m").
Proof.
  unfold align, align_fuel.
  destruct (full_edit_distance_spec s s cfg) as ([Hwm _] & _).
  pose proof (backtrace_diagonal s s cfg (length s)
                (length s + length s + 1) []) as Hrun.
  destruct (full_edit_distance s s cfg) as [matrix steps].
  simpl in Hwm, Hrun. rewrite (shape_well_shaped _ _ _ Hwm) by lia. simpl.
  replace (Z.of_nat (length s + 1) - 1) with (Z.of_nat (length s)) by lia.
  rewrite Hrun by (lia || done). by rewrite app_nil_r.
Qed.

(** ** The two matrices, whatever the costs *)

(** X5: both matrices have one row more than the first sequence has units
    and one column more than the second, whatever the costs. *)
Theorem full_edit_distance_shape (str1 str2 : list string) (cfg : costs) :
  let '(matrix, steps) := full_edit_distance str1 str2 cfg in
  shape matrix = ((length str1 + 1)%nat, (length str2 + 1)%nat) /\
  shape steps = ((length str1 + 1)%nat, (length str2 + 1)%nat) /\
  Forall (fun row => length row = (length str2 + 1)%nat) matrix /\
  Forall (fun row => length row = (length str2 + 1)%nat) steps.
Proof.
  destruct (full_edit_distance_spec str1 str2 cfg) as ([Hwm Hws] & _).
  destruct (full_edit_distance str1 str2 cfg) as [matrix steps].
  simpl in Hwm, Hws.
  split; [apply shape_well_shaped; (done || lia)|].
  split; [apply shape_well_shaped; (done || lia)|].
  split; apply Forall_forall; intros row [k Hk]%list_elem_of_lookup.
  - by apply (proj2 Hwm k).
  - by apply (proj2 Hws k).
Qed.





(** ** The matrices of prefixes *)

Lemma lookup_total_take (l : list string) (i k : nat) :
  (k < i)%nat -> take i l !!! k = l !!! k.
Proof.
  intros Hk. by rewrite !list_lookup_total_alt, lookup_take_lt.
Qed.

Section prefixes.
Variable (str1 str2 : list string) (cfg : costs) (i j : nat).
Hypothesis i_le : (i <= length str1)%nat.
Hypothesis j_le : (j <= length str2)%nat.

Local Abbreviation whole := (full_edit_distance str1 str2 cfg).
Local Abbreviation part := (full_edit_distance (take i str1) (take j str2) cfg).

Lemma prefix_same_cell (s i' j' : nat) :
  (i' + j' = s)%nat -> (i' <= i)%nat -> (j' <= j)%nat ->
  same_cell whole part i' j'.
Proof using All.
  revert i' j'. induction s as [s IH] using lt_wf_ind. intros i' j' Hs Hi' Hj'.
  destruct (full_edit_distance_spec str1 str2 cfg)
    as (_ & [Hm00 Hs00] & Hcol & Hrow & Hok).
  destruct (full_edit_distance_spec (take i str1) (take j str2) cfg)
    as (_ & [Hm00' Hs00'] & Hcol' & Hrow' & Hok').
  assert (Hleni : length (take i str1) = i) by (rewrite length_take; lia).
  assert (Hlenj : length (take j str2) = j) by (rewrite length_take; lia).
  rewrite ?Hleni, ?Hlenj in Hcol', Hrow', Hok'.
  unfold same_cell.
  destruct (decide (i' = 0%nat)) as [->|Hi0];
    [destruct (decide (j' = 0%nat)) as [->|Hj0]|
     destruct (decide (j' = 0%nat)) as [->|Hj0]].
  - by rewrite Hm00, Hm00', Hs00, Hs00'.
  - destruct (Hrow j') as [-> ->]; [lia|].
    destruct (Hrow' j') as [-> ->]; [lia|].
    by rewrite lookup_total_take by lia.
  - destruct (Hcol i') as [-> ->]; [lia|].
    destruct (Hcol' i') as [-> ->]; [lia|].
    by rewrite lookup_total_take by lia.
  - specialize (Hok i' j' ltac:(lia) ltac:(lia)).
    specialize (Hok' i' j' ltac:(lia) ltac:(lia)).
    destruct (IH (i' - 1 + (j' - 1))%nat ltac:(lia) (i' - 1)%nat (j' - 1)%nat)
      as [Hd _]; [lia..|].
    destruct (IH (i' + (j' - 1))%nat ltac:(lia) i' (j' - 1)%nat)
      as [Hl _]; [lia..|].
    destruct (IH (i' - 1 + j')%nat ltac:(lia) (i' - 1)%nat j')
      as [Hu _]; [lia..|].
    unfold cell_ok in Hok, Hok'.
    assert (Hbest : bestoption (take i str1) (take j str2) cfg part.1 i' j'
                    = bestoption str1 str2 cfg whole.1 i' j').
    { unfold bestoption, scores.
      by rewrite !lookup_total_take, Hd, Hl, Hu by lia. }
    rewrite !lookup_total_take, Hbest, Hd in Hok' by lia.
    case_decide; destruct Hok as [-> ->], Hok' as [-> ->]; done.
Qed.
End prefixes.

(** X8: the matrices of two prefixes are the upper left block of the
    matrices of the whole sequences: cell by cell they hold the same cost and
    the same operation, whatever the costs. *)
Theorem full_edit_distance_prefix (str1 str2 : list string) (cfg : costs)
    (i j i' j' : nat) :
  (i' <= i <= length str1)%nat -> (j' <= j <= length str2)%nat ->
  mget (full_edit_distance (take i str1) (take j str2) cfg).1 i' j'
    = mget (full_edit_distance str1 str2 cfg).1 i' j' /\
  mget (full_edit_distance (take i str1) (take j str2) cfg).2 i' j'
    = mget (full_edit_distance str1 str2 cfg).2 i' j'.
Proof.
  intros Hi Hj.
  apply (prefix_same_cell str1 str2 cfg i j ltac:(lia) ltac:(lia)
           (i' + j')%nat i' j'); lia.
Qed.

Lemma full_edit_distance_prefix_witness :
  ((2 <= 3 <= length (chars "sitting"))%nat /\
   (1 <= 2 <= length (chars "kitten"))%nat) /\
  mget (full_edit_distance (take 3 (chars "sitting")) (take 2 (chars "kitten"))
          default_costs).1 2 1
  = mget (full_edit_distance (chars "sitting") (chars "kitten")
            default_costs).1 2 1.
Proof.
  split; [simpl; lia|].
  apply (full_edit_distance_prefix (chars "sitting") (chars "kitten")
           default_costs 3 2 2 1); simpl; lia.
Defined.

(** ** Least costs and their scripts *)

Lemma is_min_script_cost_unique (cfg : costs) (a b : list string) (v w : Z) :
  is_min_script_cost cfg a b v -> is_min_script_cost cfg a b w -> v = w.
Proof.
  intros [(ops & out & Hv) Hvmin] [(ops' & out' & Hw) Hwmin].
  apply Hvmin in Hw. apply Hwmin in Hv. lia.
Qed.

Lemma cell_is_min_script_cost (seq1 seq2 : list string) (cfg : costs)
    (i j : nat) :
  charmatrix cfg = ∅ ->
  0 <= substitutionscore cfg -> 0 <= insertscore cfg -> 0 <= deletescore cfg ->
  (i <= length seq1)%nat -> (j <= length seq2)%nat ->
  is_min_script_cost cfg (take i seq1) (take j seq2)
    (mget (full_edit_distance seq1 seq2 cfg).1 i j).
Proof.
  intros Hcm Hsub Hins Hdel Hi Hj. split.
  - by apply (replay_attains seq1 seq2 cfg Hcm Hsub Hins Hdel (i + j)%nat).
  - intros ops out k Hrep.
    pose proof (replay_lower_bound seq1 seq2 cfg Hcm Hsub Hins Hdel
                  ops 0 0 i j out k) as Hlow.
    rewrite !drop_0 in Hlow. specialize (Hlow ltac:(lia) ltac:(lia) Hrep).
    rewrite matrix_row0 in Hlow by (done || lia). lia.
Qed.

Lemma swap_op_values :
  swap_op "m" = "m" /\ swap_op "s" = "s" /\
  swap_op "i" = "d" /\ swap_op "d" = "i".
Proof. by vm_compute. Qed.

(** With one cost for insertions and deletions and no overrides, a script
    for [(a, b)] read with ['i'] and ['d'] exchanged is a script for
    [(b, a)] of the same cost. *)
Lemma replay_swap (cfg : costs) (ops a b out : list string) (k : Z) :
  charmatrix cfg = ∅ -> insertscore cfg = deletescore cfg ->
  replay cfg ops a b = Some (out, k) ->
  replay cfg (swap_op <$> ops) b a = Some (a, k).
Proof.
  intros Hcm Hid. destruct swap_op_values as (Hm & Hs & Hi & Hd).
  revert a b out k. induction ops as [|op ops IH]; intros a b out k Hrun;
    simpl in Hrun.
  - destruct a, b; try done. by injection Hrun as <- <-.
  - rewrite fmap_cons.
    repeat case_decide; try done; subst op.
    + destruct a as [|x a], b as [|y b]; try done.
      case_decide as Hxy; [|done]. replay_rest Hrun Hr.
      apply IH in Hr. rewrite Hm. simpl.
      rewrite decide_True by done. rewrite Hr. simpl. by subst.
    + destruct a as [|x a], b as [|y b]; try done.
      replay_rest Hrun Hr. apply IH in Hr. rewrite Hs. simpl.
      rewrite Hr. simpl. by rewrite !(op_cost_scalar cfg Hcm).
    + destruct b as [|y b]; try done.
      replay_rest Hrun Hr. apply IH in Hr. rewrite Hi. simpl.
      rewrite Hr. simpl. rewrite !(op_cost_scalar cfg Hcm). simpl.
      by rewrite Hid.
    + destruct a as [|x a]; try done.
      replay_rest Hrun Hr. apply IH in Hr. rewrite Hd. simpl.
      rewrite Hr. simpl. rewrite !(op_cost_scalar cfg Hcm). simpl.
      by rewrite Hid.
Qed.

Lemma swap_op_involutive (ops : list string) :
  swap_op <$> (swap_op <$> ops) = ops.
Proof.
  induction ops as [|op ops IH]; [done|]. rewrite !fmap_cons, IH. f_equal.
  unfold swap_op. repeat case_decide; congruence.
Qed.

Lemma is_min_script_cost_swap (cfg : costs) (a b : list string) (v : Z) :
  charmatrix cfg = ∅ -> insertscore cfg = deletescore cfg ->
  is_min_script_cost cfg a b v -> is_min_script_cost cfg b a v.
Proof.
  intros Hcm Hid [(ops & out & Hv) Hmin]. split.
  - exists (swap_op <$> ops), a. by eapply replay_swap.
  - intros ops' out' k Hk. eapply Hmin. by eapply replay_swap.
Qed.

(** X9: with one non-negative cost for insertions and deletions, a
    non-negative substitution cost and no overrides, exchanging the two
    sequences transposes the scoring matrix. *)
Theorem full_edit_distance_transpose (seq1 seq2 : list string) (cfg : costs)
    (i j : nat) :
  charmatrix cfg = ∅ -> insertscore cfg = deletescore cfg ->
  0 <= substitutionscore cfg -> 0 <= insertscore cfg ->
  (i <= length seq1)%nat -> (j <= length seq2)%nat ->
  mget (full_edit_distance seq2 seq1 cfg).1 j i
  = mget (full_edit_distance seq1 seq2 cfg).1 i j.
Proof.
  intros Hcm Hid Hsub Hins Hi Hj.
  apply (is_min_script_cost_unique cfg (take j seq2) (take i seq1)).
  - apply cell_is_min_script_cost; (done || lia).
  - apply is_min_script_cost_swap; [done..|].
    apply cell_is_min_script_cost; (done || lia).
Qed.

Lemma full_edit_distance_transpose_witness :
  (charmatrix default_costs = ∅ /\
   insertscore default_costs = deletescore default_costs /\
   0 <= substitutionscore default_costs /\ 0 <= insertscore default_costs /\
   (7 <= length (chars "sitting"))%nat /\
   (6 <= length (chars "kitten"))%nat) /\
  mget (full_edit_distance (chars "kitten") (chars "sitting")
          default_costs).1 6 7
  = mget (full_edit_distance (chars "sitting") (chars "kitten")
            default_costs).1 7 6.
Proof.
  split; [simpl; repeat split; lia|].
  apply (full_edit_distance_transpose (chars "sitting") (chars "kitten")
           default_costs 7 6);
    [reflexivity|reflexivity|simpl; lia|simpl; lia|simpl; lia|simpl; lia].
Defined.

(** ** The cost of the aligned script *)

Section backtrace_cost.
Variable (str1 str2 : list string) (cfg : costs).
Hypothesis no_overrides : charmatrix cfg = ∅.

Local Abbreviation n := (length str1).
Local Abbreviation m := (length str2).
Local Abbreviation matrix := (full_edit_distance str1 str2 cfg).1.
Local Abbreviation steps := (full_edit_distance str1 str2 cfg).2.

(** Without overrides the script that the loop puts in front of [path]
    costs what the cell it starts from holds. *)
Lemma backtrace_cost (fuel i j : nat) (path : list string) :
  (i <= n)%nat -> (j <= m)%nat -> (i + j < fuel)%nat ->
  exists ops,
    backtrace fuel steps (Z.of_nat i) (Z.of_nat j) path = Ok (ops ++ path) /\
    replay cfg ops (take i str1) (take j str2)
    = Some (take j str2, mget matrix i j).
Proof using All.
  revert i j path. induction fuel as [|fuel IH]; intros i j path Hi Hj Hfuel;
    [lia|].
  cbn [backtrace]. rewrite steps_lookup by done.
  destruct (full_edit_distance_spec str1 str2 cfg)
    as (_ & [_ H00] & Hcol & Hrow & _).
  assert (Hkd : key !! "d" = Some (-1, 0)) by reflexivity.
  assert (Hki : key !! "i" = Some (0, -1)) by reflexivity.
  assert (Hkm : key !! "m" = Some (-1, -1)) by reflexivity.
  assert (Hks : key !! "s" = Some (-1, -1)) by reflexivity.
  assert (Hdel : forall p, (1 <= i)%nat ->
    mget matrix i j = mget matrix (i - 1) j + deletescore cfg ->
    exists ops,
      backtrace fuel steps (Z.of_nat i + -1) (Z.of_nat j + 0) ("d" :: p)
        = Ok (ops ++ p) /\
      replay cfg ops (take i str1) (take j str2)
      = Some (take j str2, mget matrix i j)).
  { intros p Hi1 ->.
    replace (Z.of_nat i + -1) with (Z.of_nat (i - 1)) by lia.
    rewrite Z.add_0_r.
    destruct (IH (i - 1)%nat j ("d" :: p)) as (ops & Hrun & Hrep); [lia..|].
    exists (ops ++ ["d"]). split; [by rewrite <- app_assoc|].
    rewrite (take_snoc str1 i) by lia.
    rewrite <- (app_nil_r (take j str2)) at 1.
    rewrite <- (app_nil_r (take j str2)) at 2.
    apply replay_app; [done|]. simpl.
    rewrite (op_cost_scalar cfg no_overrides). simpl. by rewrite Z.add_0_r. }
  assert (Hins : forall p, (1 <= j)%nat ->
    mget matrix i j = mget matrix i (j - 1) + insertscore cfg ->
    exists ops,
      backtrace fuel steps (Z.of_nat i + 0) (Z.of_nat j + -1) ("i" :: p)
        = Ok (ops ++ p) /\
      replay cfg ops (take i str1) (take j str2)
      = Some (take j str2, mget matrix i j)).
  { intros p Hj1 ->.
    replace (Z.of_nat j + -1) with (Z.of_nat (j - 1)) by lia.
    rewrite Z.add_0_r.
    destruct (IH i (j - 1)%nat ("i" :: p)) as (ops & Hrun & Hrep); [lia..|].
    exists (ops ++ ["i"]). split; [by rewrite <- app_assoc|].
    rewrite (take_snoc str2 j) by lia.
    rewrite <- (app_nil_r (take i str1)).
    apply replay_app; [done|]. simpl.
    rewrite (op_cost_scalar cfg no_overrides). simpl. by rewrite Z.add_0_r. }
  assert (Hdiag : forall op c p, (1 <= i)%nat -> (1 <= j)%nat ->
    (op = "s" /\ c = substitutionscore cfg \/
     op = "m" /\ c = 0 /\ str1 !!! (i - 1)%nat = str2 !!! (j - 1)%nat) ->
    mget matrix i j = mget matrix (i - 1) (j - 1) + c ->
    exists ops,
      backtrace fuel steps (Z.of_nat i + -1) (Z.of_nat j + -1) (op :: p)
        = Ok (ops ++ p) /\
      replay cfg ops (take i str1) (take j str2)
      = Some (take j str2, mget matrix i j)).
  { intros op c p Hi1 Hj1 Hop ->.
    replace (Z.of_nat i + -1) with (Z.of_nat (i - 1)) by lia.
    replace (Z.of_nat j + -1) with (Z.of_nat (j - 1)) by lia.
    destruct (IH (i - 1)%nat (j - 1)%nat (op :: p)) as (ops & Hrun & Hrep);
      [lia..|].
    exists (ops ++ [op]). split; [by rewrite <- app_assoc|].
    rewrite (take_snoc str1 i), (take_snoc str2 j) by lia.
    apply replay_app; [done|].
    destruct Hop as [[-> ->]|(-> & -> & Heq)]; simpl.
    - rewrite (op_cost_scalar cfg no_overrides). simpl. by rewrite Z.add_0_r.
    - by rewrite decide_True by done. }
  destruct (decide (i = 0%nat)) as [->|Hi0];
    [destruct (decide (j = 0%nat)) as [->|Hj0]|
     destruct (decide (j = 0%nat)) as [->|Hj0]].
  - rewrite H00. simpl. exists []. rewrite !take_0. simpl.
    by rewrite (matrix_row0 str1 str2 cfg no_overrides) by lia.
  - destruct (Hrow j) as [_ ->]; [lia|]. simpl. rewrite Hki.
    apply Hins; [lia|].
    rewrite !(matrix_row0 str1 str2 cfg no_overrides) by lia.
    replace (Z.of_nat (j - 1)) with (Z.of_nat j - 1) by lia. lia.
  - destruct (Hcol i) as [_ ->]; [lia|]. simpl. rewrite Hkd.
    apply Hdel; [lia|].
    rewrite !(matrix_col0 str1 str2 cfg no_overrides) by lia.
    replace (Z.of_nat (i - 1)) with (Z.of_nat i - 1) by lia. lia.
  - destruct (decide (str1 !!! (i - 1)%nat = str2 !!! (j - 1)%nat))
      as [Heq|Hne].
    + destruct (steps_interior str1 str2 cfg i j) as [[-> _]|[Hne _]];
        [lia..| |done].
      simpl. rewrite Hkm. apply (Hdiag "m" 0); [lia|lia|auto|].
      rewrite (matrix_interior str1 str2 cfg no_overrides i j) by lia.
      rewrite decide_True by done. lia.
    + destruct (tie_break_cell str1 str2 cfg i j) as [Hstep Hval];
        [lia..|done|].
      rewrite !(dict_get_no_overrides cfg no_overrides) in Hstep, Hval.
      repeat case_decide; rewrite Hstep; simpl.
      * rewrite Hks. apply (Hdiag "s" (substitutionscore cfg)); [lia|lia|auto|].
        lia.
      * rewrite Hki. apply Hins; lia.
      * rewrite Hkd. apply Hdel; lia.
Qed.
End backtrace_cost.



(** ** Distance zero *)






(** ** [edit_distance] on the edges *)

(** X12: against an empty sequence [edit_distance] is the length of the
    other sequence, whichever of the two is empty. *)
Theorem edit_distance_empty (s : list string) :
  edit_distance [] s = Z.of_nat (length s) /\
  edit_distance s [] = Z.of_nat (length s).
Proof.
  unfold edit_distance, edit_distance_ordered. split.
  - case_decide as Hlt; [done|]. simpl in Hlt.
    case_decide as Hlen; [by rewrite Hlen|lia].
  - rewrite decide_False by (simpl; lia). done.
Qed.

(** X13: when the two sequences differ in length, [edit_distance] gives the
    same value in either order: both calls run the loop over the longer
    sequence. *)
Theorem edit_distance_swap (a b : list string) :
  length a <> length b -> edit_distance a b = edit_distance b a.
Proof.
  intros Hne. unfold edit_distance. repeat case_decide; (done || lia).
Qed.

Lemma edit_distance_swap_witness :
  length (chars "sitting") <> length (chars "kitten") /\
  edit_distance (chars "sitting") (chars "kitten")
  = edit_distance (chars "kitten") (chars "sitting").
Proof.
  split; [simpl; lia|].
  apply (edit_distance_swap (chars "sitting") (chars "kitten")). simpl. lia.
Defined.

Section same_sequence.
Variable (s : list string).

Local Abbreviation n := (length s).

Lemma same_sequence_rows (i : nat) :
  (i <= n)%nat ->
  let row := foldl (edit_distance_row s) (arange (n + 1)) (take i s) in
  row_bounded n (Z.of_nat i) row /\ row !!! i = 0.
Proof.
  intros Hi. cbv zeta.
  assert (Hbound : forall k, (k <= n)%nat ->
    row_bounded n (Z.of_nat k)
      (foldl (edit_distance_row s) (arange (n + 1)) (take k s))).
  { intros k Hk.
    pose proof (row_bounded_foldl s (take k s) 0 (arange (n + 1))
                  ltac:(lia) (row_bounded_arange s)) as Hb.
    rewrite length_take in Hb.
    by replace (0 + Z.of_nat (k `min` n)) with (Z.of_nat k) in Hb by lia. }
  split; [by apply Hbound|].
  induction i as [|i IH].
  - simpl. by rewrite arange_lookup by lia.
  - specialize (IH ltac:(lia)).
    pose proof (Hbound i ltac:(lia)) as [Hlen _].
    pose proof (Hbound (S i) ltac:(lia)) as [_ Hlow].
    specialize (Hlow (S i) ltac:(lia)).
    rewrite (take_S_r s i (s !!! i)) in *
      by (apply list_lookup_lookup_total_lt; lia).
    rewrite foldl_snoc in *.
    set (prev := foldl _ _ (take i s)) in *.
    destruct (matched_row_spec s prev (s !!! i) Hlen) as (_ & _ & Hmid).
    destruct (edit_distance_row_spec s prev (s !!! i) Hlen) as (_ & _ & Hrow).
    cbv zeta in Hmid, Hrow.
    rewrite Hrow, Hmid in * by lia. rewrite decide_True in * by done. lia.
Qed.
End same_sequence.

(** X14: [edit_distance] of a sequence and itself is 0. *)
Theorem edit_distance_same (s : list string) : edit_distance s s = 0.
Proof.
  unfold edit_distance. rewrite decide_False by lia.
  unfold edit_distance_ordered. case_decide as Hlen; [by rewrite Hlen|].
  destruct (same_sequence_rows s (length s)) as [[Hrow _] Hzero]; [lia|].
  rewrite firstn_all in Hrow, Hzero.
  by rewrite (last_item_lookup _ (length s)).
Qed.

(** ** [edit_distance] never falls below the scoring matrix *)

Section rows_dominate.
Variable (str1 str2 : list string).

Local Abbreviation n := (length str1).
Local Abbreviation m := (length str2).
Local Abbreviation matrix := (full_edit_distance str1 str2 default_costs).1.


End rows_dominate.





(** ** [greek_filter], composed *)

Lemma greek_filter_as_filter (s : list Z) :
  greek_filter s = filter greek_codepoint s.
Proof. unfold greek_filter. apply list_filter_iff, elem_of_greek_chars. Qed.

Lemma filter_fixed {A} (P : A -> Prop) `{!forall x, Decision (P x)} (l : list A) :
  filter P l = l <-> Forall P l.
Proof.
  induction l as [|x l IH]; [by split; [constructor|]|].
  rewrite filter_cons. case_decide as Hx.
  - split.
    + intros [= Hl]. constructor; [done|by apply IH].
    + intros Hall. inversion Hall; subst. f_equal. by apply IH.
  - split.
    + intros Heq. pose proof (length_filter P l) as Hlen.
      rewrite Heq in Hlen. simpl in Hlen. lia.
    + intros Hall. by inversion Hall.
Qed.

Lemma filter_empty {A} (P : A -> Prop) `{!forall x, Decision (P x)} (l : list A) :
  filter P l = [] <-> Forall (fun x => ~ P x) l.
Proof.
  induction l as [|x l IH]; [by split; [constructor|]|].
  rewrite filter_cons. case_decide as Hx.
  - split; [done|]. intros Hall. by inversion Hall.
  - rewrite IH. split; [by constructor|]. intros Hall. by inversion Hall.
Qed.

(** X17: filtering twice gives what filtering once gives, and the filter of
    a concatenation is the concatenation of the filters. *)
Theorem greek_filter_compose (s t : list Z) :
  greek_filter (greek_filter s) = greek_filter s /\
  greek_filter (s ++ t) = greek_filter s ++ greek_filter t.
Proof.
  split.
  - rewrite !greek_filter_as_filter. apply filter_fixed.
    apply Forall_forall. by intros c [Hc _]%list_elem_of_filter.
  - unfold greek_filter. apply filter_app.
Qed.

(** X18: [greek_filter] returns its argument unchanged exactly when every
    character lies in one of the three ranges, and the empty string exactly
    when none does. *)
Theorem greek_filter_fixed_or_empty (s : list Z) :
  (greek_filter s = s <-> Forall greek_codepoint s) /\
  (greek_filter s = [] <-> Forall (fun c => ~ greek_codepoint c) s).
Proof.
  rewrite greek_filter_as_filter. split.
  - apply filter_fixed.
  - apply filter_empty.
Qed.

(** ** hOCR tokens *)

Section hocr.
Variable (isspace : Z -> bool).

Lemma rstrip_last (text : list Z) (c : Z) :
  last (rstrip isspace text) = Some c -> isspace c = false.
Proof.
  induction text as [|x text IH]; [done|]. simpl.
  destruct (rstrip isspace text) as [|y rest] eqn:Hrest.
  - destruct (isspace x) eqn:Hx; [done|]. by intros [= <-].
  - intros Hlast. apply IH. by rewrite last_cons_cons in Hlast.
Qed.

Lemma rstrip_split (text : list Z) :
  exists ws, text = rstrip isspace text ++ ws /\ Forall (fun c => isspace c = true) ws.
Proof.
  induction text as [|x text (ws & Htext & Hws)]; [by exists []|]. simpl.
  destruct (rstrip isspace text) as [|y rest] eqn:Hrest.
  - destruct (isspace x) eqn:Hx.
    + exists (x :: ws). split; [by rewrite Htext at 1|by constructor].
    + exists ws. split; [by rewrite Htext at 1|done].
  - exists ws. split; [by rewrite Htext at 1|done].
Qed.

Lemma rstrip_whitespace (text : list Z) :
  Forall (fun c => isspace c = true) text -> rstrip isspace text = [].
Proof.
  induction 1 as [|x text Hx _ IH]; [done|]. simpl. by rewrite IH, Hx.
Qed.

Lemma extract_hocr_loop_spec (context : list (option (list Z)))
    (words : list (list Z)) :
  match extract_hocr_loop isspace context words with
  | None => None ∈ context
  | Some result =>
    (None ∉ context) /\
    exists new,
      result = words ++ new /\
      (length new <= length context)%nat /\
      Forall (fun w => w <> [] /\
                       exists text, Some text ∈ context /\
                                    w = rstrip isspace text) new
  end.
Proof.
  revert words. induction context as [|[text|] context IH]; intros words.
  - simpl. split; [by intros ?%elem_of_nil|].
    exists []. by rewrite app_nil_r.
  - cbn [extract_hocr_loop]. cbv zeta. unfold to_unicode.
    set (words' := if decide (0 < length (rstrip isspace text))%nat
                   then words ++ [rstrip isspace text] else words).
    specialize (IH words').
    destruct (extract_hocr_loop isspace context words') as [result|].
    + destruct IH as (Hnone & new & -> & Hlen & Hall).
      split; [by intros [?|?]%elem_of_cons|].
      assert (Hall' : Forall (fun w => w <> [] /\
                 exists t, Some t ∈ Some text :: context /\
                           w = rstrip isspace t) new).
      { eapply Forall_impl; [exact Hall|].
        intros w (Hw & t & Ht & ->). split; [done|].
        exists t. split; [by right|done]. }
      unfold words'. case_decide as Hword.
      * exists (rstrip isspace text :: new).
        split; [by rewrite <- app_assoc|]. split; [simpl; lia|].
        constructor; [|done]. split.
        -- intros Hnil. rewrite Hnil in Hword. simpl in Hword. lia.
        -- exists text. split; [by left|done].
      * exists new. split; [done|]. split; [simpl; lia|done].
    + by right.
  - simpl. by left.
Qed.
End hocr.

(** X19: [extract_hocr_tokens] raises exactly when some [span] has no text.
    Otherwise it returns at most one word per [span]; each word is the text
    of a [span] without its trailing whitespace, is not empty and does not
    end in whitespace. *)
Theorem extract_hocr_tokens_words (isspace : Z -> bool)
    (context : list (option (list Z))) :
  (extract_hocr_tokens isspace context = None <-> None ∈ context) /\
  (forall words, extract_hocr_tokens isspace context = Some words ->
     (length words <= length context)%nat /\
     Forall (fun w =>
               w <> [] /\
               (forall c, last w = Some c -> isspace c = false) /\
               exists text, Some text ∈ context /\ w = rstrip isspace text)
            words).
Proof.
  unfold extract_hocr_tokens.
  pose proof (extract_hocr_loop_spec isspace context []) as Hspec.
  destruct (extract_hocr_loop isspace context []) as [result|].
  - destruct Hspec as (Hnone & new & -> & Hlen & Hall). simpl. split.
    + split; [done|]. intros Hin. by destruct Hnone.
    + intros words [= <-]. split; [done|].
      eapply Forall_impl; [exact Hall|].
      intros w (Hw & text & Htext & ->). split; [done|].
      split; [apply rstrip_last|by exists text].
  - split; [done|]. by intros words.
Qed.

Lemma extract_hocr_loop_acc (isspace : Z -> bool)
    (context : list (option (list Z))) (words : list (list Z)) :
  extract_hocr_loop isspace context words
  = (fun new => words ++ new) <$> extract_hocr_loop isspace context [].
Proof.
  revert words. induction context as [|[text|] context IH]; intros words.
  - simpl. by rewrite app_nil_r.
  - cbn [extract_hocr_loop]. cbv zeta.
    rewrite (IH (if decide _ then _ else _)).
    rewrite (IH (if decide _ then [] ++ _ else [])).
    destruct (extract_hocr_loop isspace context []) as [new|]; [|done].
    simpl. case_decide; [|done]. by rewrite <- app_assoc.
  - done.
Qed.

Lemma extract_hocr_loop_app (isspace : Z -> bool)
    (context1 context2 : list (option (list Z))) (words : list (list Z)) :
  extract_hocr_loop isspace (context1 ++ context2) words
  = (words1 ← extract_hocr_loop isspace context1 words;
     extract_hocr_loop isspace context2 words1).
Proof.
  revert words. induction context1 as [|[text|] context1 IH]; intros words.
  - done.
  - cbn [app extract_hocr_loop]. cbv zeta. apply IH.
  - done.
Qed.

(** X20: the words of two runs of [span]s, one after the other, are the
    words of the first run followed by those of the second, and the call
    raises when either run does; a [span] whose text is whitespace only
    adds no word. *)
Theorem extract_hocr_tokens_app (isspace : Z -> bool)
    (context1 context2 : list (option (list Z))) (blank : list Z) :
  extract_hocr_tokens isspace (context1 ++ context2)
  = (words1 ← extract_hocr_tokens isspace context1;
     words2 ← extract_hocr_tokens isspace context2;
     Some (words1 ++ words2)) /\
  (Forall (fun c => isspace c = true) blank ->
   extract_hocr_tokens isspace (Some blank :: context1)
   = extract_hocr_tokens isspace context1).
Proof.
  unfold extract_hocr_tokens. split.
  - rewrite extract_hocr_loop_app.
    destruct (extract_hocr_loop isspace context1 []) as [words1|]; [|done].
    simpl. rewrite extract_hocr_loop_acc.
    by destruct (extract_hocr_loop isspace context2 []).
  - intros Hblank. cbn [extract_hocr_loop]. cbv zeta. unfold to_unicode.
    by rewrite (rstrip_whitespace isspace blank Hblank).
Qed.

Lemma extract_hocr_tokens_app_witness :
  Forall (fun c => Z.eqb c 32 = true) [32; 32] /\
  extract_hocr_tokens (fun c => Z.eqb c 32) [Some [32; 32]; Some [97; 32]]
  = extract_hocr_tokens (fun c => Z.eqb c 32) [Some [97; 32]].
Proof.
  assert (Hblank : Forall (fun c => Z.eqb c 32 = true) [32; 32])
    by (repeat constructor).
  split; [exact Hblank|].
  exact (proj2 (extract_hocr_tokens_app (fun c => Z.eqb c 32)
                  [Some [97; 32]] [] [32; 32]) Hblank).
Defined.

(** ** Counting the operations that are not matches *)

Lemma replay_default_cost (ops a b out : list string) (k : Z) :
  replay default_costs ops a b = Some (out, k) ->
  k = Z.of_nat (length (filter (fun op => op <> "m") ops)).
Proof.
  revert a b out k. induction ops as [|op ops IH]; intros a b out k Hrun;
    simpl in Hrun.
  - destruct a, b; try done. by injection Hrun as <- <-.
  - repeat case_decide; try done; subst op.
    + destruct a as [|x a], b as [|y b]; try done.
      case_decide; [|done]. replay_rest Hrun Hr. apply IH in Hr as ->.
      by rewrite filter_cons_False by (intros Hne; by apply Hne).
    + destruct a as [|x a], b as [|y b]; try done.
      replay_rest Hrun Hr. apply IH in Hr as ->.
      rewrite filter_cons_True by done. simpl length.
      change (op_cost default_costs "s" x y) with 1. lia.
    + destruct b as [|y b]; try done.
      replay_rest Hrun Hr. apply IH in Hr as ->.
      rewrite filter_cons_True by done. simpl length.
      change (op_cost default_costs "i" "" y) with 1. lia.
    + destruct a as [|x a]; try done.
      replay_rest Hrun Hr. apply IH in Hr as ->.
      rewrite filter_cons_True by done. simpl length.
      change (op_cost default_costs "d" x "") with 1. lia.
Qed.

(** X21: with the default costs the operations other than ['m'] in the
    sequence [align] returns are as many as the bottom-right cell of the
    scoring matrix says, and no script that turns the first sequence into
    the second has fewer. *)
Theorem align_counts_distance (a b : list string) :
  exists path,
    align a b default_costs = Ok path /\
    Z.of_nat (length (filter (fun op => op <> "m") path))
    = mget (full_edit_distance a b default_costs).1 (length a) (length b) /\
    (forall ops out k,
       replay default_costs ops a b = Some (out, k) ->
       (length (filter (fun op => op <> "m") path)
        <= length (filter (fun op => op <> "m") ops))%nat).
Proof.
  destruct (backtrace_cost a b default_costs eq_refl
              (length a + length b + 1) (length a) (length b) [])
    as (path & Hrun & Hrep); [lia..|].
  rewrite app_nil_r in Hrun. rewrite !firstn_all in Hrep.
  pose proof (replay_default_cost _ _ _ _ _ Hrep) as Hcost.
  exists path. split; [|split; [done|]].
  - unfold align, align_fuel.
    destruct (full_edit_distance_spec a b default_costs) as ([Hwm _] & _).
    destruct (full_edit_distance a b default_costs) as [matrix steps].
    simpl in Hwm, Hrun. rewrite (shape_well_shaped _ _ _ Hwm) by lia. simpl.
    replace (Z.of_nat (length a + 1) - 1) with (Z.of_nat (length a)) by lia.
    by replace (Z.of_nat (length b + 1) - 1) with (Z.of_nat (length b)) by lia.
  - intros ops out k Hk.
    destruct (full_corner_is_levenshtein a b) as [_ Hmin].
    pose proof (Hmin _ _ _ Hk) as Hle.
    apply replay_default_cost in Hk. lia.
Qed.


Lemma extract_hocr_tokens_words_witness :
  extract_hocr_tokens (fun c => Z.eqb c 32) [Some [97; 32]; Some [32]]
  = Some [[97]] /\
  (length [[97]] <= length [Some [97; 32]; Some [32]])%nat.
Proof.
  split; [reflexivity|].
  exact (proj1 (proj2 (extract_hocr_tokens_words (fun c => Z.eqb c 32)
                         [Some [97; 32]; Some [32]]) [[97]] eq_refl)).
Defined.
